(** * The fetch wrapper of the toolkit: request execution, retry, URL and
      body utilities, and the global-fetch polyfill.

    The development embeds [packages/fetch/src/utils.ts], the [Fetcher]
    class of [core.ts], the types of [types.ts] and the install/restore
    utilities of [polyfill.ts] as Rocq functions, and proves the
    properties their specification states.

    Conventions of the embedding.
    - JavaScript strings are [string]s of bytes (the UTF-8 encoding of a
      well-formed string); every character the code inspects is ASCII.
    - JavaScript numbers are integers of [Z]; fractional values, NaN and
      the rounding of doubles are outside the model.
    - An object property is a [Slot]: absent, present holding
      [undefined], or present holding a value.  The distinction matters
      for object spread, which copies every own property, also one that
      holds [undefined].
    - Objects are ordinary: no user-defined [toString], [toJSON] or
      getter runs when a value is converted or serialized.
    - A call that may throw returns an [Outcome]; the asynchronous code
      is sequential (every promise is awaited at once), so it is modelled
      in a writer monad over outcomes that logs the observable events.
    - The platform's [Headers] class is modelled with the checks of the
      Fetch standard: [set] refuses, with a [TypeError], a name that is
      not a token and a value that holds a NUL, a line feed or a carriage
      return, and it stores values without their leading and trailing
      whitespace.  So [mergeHeaders], [mergeConfig], [extend] and the
      header assembly of [performRequest] may throw.
    - The world outside (the transport, the body readers of a response,
      the hooks of a configuration) is given as functions, and the timer
      of a request fires exactly when the transport takes longer than the
      timeout (timeouts are below [2 ^ 31], the largest delay a timer
      takes as it is).  A hook is a function of the configuration it
      receives: it may return any configuration, but one that changes in
      place an object it shares with the merged configuration is outside
      the model.
    - The entries of an object are listed in the order they were written;
      keys made of digits only, which JavaScript lists first, are outside
      the model where the order matters.  Numbers are converted to
      strings in decimal notation, as JavaScript does below [10 ^ 21]. *)

From Stdlib Require Import ZArith List Bool Ascii String DecimalString Lia.
From stdpp Require Import base option gmap strings fin_maps.

Set Warnings "-register-all".

Local Open Scope string_scope.
Local Open Scope list_scope.
Local Open Scope Z_scope.

(** ** JavaScript values *)

(** The values the wrapper handles: primitives, arrays and plain objects
    (with [Object.entries] order), and the platform classes that
    [serializeBody] and [getContentType] test with [instanceof]. *)
Inductive JsVal : Type :=
| VUndefined
| VNull
| VBool (b : bool)
| VNum (n : Z)
| VStr (s : string)
| VArr (items : list JsVal)
| VObj (entries : list (string * JsVal))
| VBlob (type : string) (bytes : string)
| VArrayBuffer (bytes : string)
| VFormData (fields : list (string * string))
| VURLSearchParams (pairs : list (string * string))
| VReadableStream (chunks : list string).

(** The double quote [U+0022] and the backslash [U+005C]. *)
Definition dquote : string := String "034"%char EmptyString.
Definition backslash : string := String "092"%char EmptyString.

Module Js.

(** [String(n)] of an integer. *)
Definition num_to_string (n : Z) : string :=
  NilEmpty.string_of_int (Z.to_int n).

Definition hex_digit (upper : bool) (n : N) : ascii :=
  if (n <? 10)%N then ascii_of_N (48 + n)
  else ascii_of_N ((if upper then 55 else 87) + n).

(** Two hexadecimal digits of a byte. *)
Definition hex_byte (upper : bool) (c : ascii) : string :=
  let n := N_of_ascii c in
  String (hex_digit upper (n / 16)) (String (hex_digit upper (n mod 16)) EmptyString).

Definition is_ascii_alnum (c : ascii) : bool :=
  let n := N_of_ascii c in
  ((48 <=? n) && (n <=? 57) || (65 <=? n) && (n <=? 90) || (97 <=? n) && (n <=? 122))%N.

(** The application/x-www-form-urlencoded byte serializer: alphanumerics
    and [*-._] stay, a space becomes [+], every other byte is
    percent-encoded with upper-case digits. *)
Definition form_encode_byte (c : ascii) : string :=
  let n := N_of_ascii c in
  if is_ascii_alnum c || (n =? 42)%N || (n =? 45)%N || (n =? 46)%N || (n =? 95)%N
  then String c EmptyString
  else if (n =? 32)%N then "+"
  else String "%"%char (hex_byte true c).

Fixpoint form_encode (s : string) : string :=
  match s with
  | EmptyString => EmptyString
  | String c rest => form_encode_byte c +:+ form_encode rest
  end.

(** [URLSearchParams.prototype.toString]. *)
Fixpoint urlencoded (pairs : list (string * string)) : string :=
  match pairs with
  | [] => EmptyString
  | (k, v) :: rest =>
      let one := form_encode k +:+ "=" +:+ form_encode v in
      match rest with
      | [] => one
      | _ => one +:+ "&" +:+ urlencoded rest
      end
  end.

(** [String(v)]. *)
Fixpoint to_string (v : JsVal) : string :=
  match v with
  | VUndefined => "undefined"
  | VNull => "null"
  | VBool true => "true"
  | VBool false => "false"
  | VNum n => num_to_string n
  | VStr s => s
  | VArr items =>
      (fix join (l : list JsVal) : string :=
         match l with
         | [] => EmptyString
         | x :: rest =>
             let one := match x with
                        | VUndefined | VNull => EmptyString
                        | _ => to_string x
                        end in
             match rest with
             | [] => one
             | _ => one +:+ "," +:+ join rest
             end
         end) items
  | VObj _ => "[object Object]"
  | VBlob _ _ => "[object Blob]"
  | VArrayBuffer _ => "[object ArrayBuffer]"
  | VFormData _ => "[object FormData]"
  | VURLSearchParams pairs => urlencoded pairs
  | VReadableStream _ => "[object ReadableStream]"
  end.

(** One character of [JSON.stringify]'s string quoting. *)
Definition json_escape_char (c : ascii) : string :=
  let n := N_of_ascii c in
  if (n =? 8)%N then backslash +:+ "b"
  else if (n =? 9)%N then backslash +:+ "t"
  else if (n =? 10)%N then backslash +:+ "n"
  else if (n =? 12)%N then backslash +:+ "f"
  else if (n =? 13)%N then backslash +:+ "r"
  else if (n =? 34)%N then backslash +:+ dquote
  else if (n =? 92)%N then backslash +:+ backslash
  else if (n <? 32)%N then backslash +:+ "u00" +:+ hex_byte false c
  else String c EmptyString.

Fixpoint json_escape (s : string) : string :=
  match s with
  | EmptyString => EmptyString
  | String c rest => json_escape_char c +:+ json_escape rest
  end.

Definition json_quote (s : string) : string :=
  dquote +:+ json_escape s +:+ dquote.

(** [JSON.stringify(v)] without indentation; [None] is [undefined].
    Inside an array [undefined] prints as [null], inside an object a
    property holding [undefined] is left out, and a platform object has
    no enumerable property. *)
Fixpoint json_stringify (v : JsVal) : option string :=
  match v with
  | VUndefined => None
  | VNull => Some "null"
  | VBool true => Some "true"
  | VBool false => Some "false"
  | VNum n => Some (num_to_string n)
  | VStr s => Some (json_quote s)
  | VArr items =>
      Some ("[" +:+
        (fix elems (l : list JsVal) : string :=
           match l with
           | [] => EmptyString
           | x :: rest =>
               let one := match json_stringify x with
                          | Some s => s
                          | None => "null"
                          end in
               match rest with
               | [] => one
               | _ => one +:+ "," +:+ elems rest
               end
           end) items +:+ "]")
  | VObj entries =>
      Some ("{" +:+
        (fix members (first : bool) (l : list (string * JsVal)) : string :=
           match l with
           | [] => EmptyString
           | (k, x) :: rest =>
               match json_stringify x with
               | Some s =>
                   (if first then EmptyString else ",") +:+ json_quote k +:+ ":" +:+ s
                     +:+ members false rest
               | None => members first rest
               end
           end) true entries +:+ "}")
  | VBlob _ _ | VArrayBuffer _ | VFormData _ | VURLSearchParams _
  | VReadableStream _ => Some "{}"
  end.

(** [s.includes(c)] for a single character. *)
Fixpoint includes_char (c : ascii) (s : string) : bool :=
  match s with
  | EmptyString => false
  | String d rest => if Ascii.eqb c d then true else includes_char c rest
  end.

(** ASCII lower-casing, as [Headers] normalises header names. *)
Definition lower_char (c : ascii) : ascii :=
  let n := N_of_ascii c in
  if ((65 <=? n) && (n <=? 90))%N then ascii_of_N (n + 32) else c.

Fixpoint lower (s : string) : string :=
  match s with
  | EmptyString => EmptyString
  | String c rest => String (lower_char c) (lower rest)
  end.

End Js.

(** ** utils.ts *)

(** A value that [value !== undefined && value !== null] rejects. *)
Definition is_nullish (v : JsVal) : bool :=
  match v with
  | VUndefined | VNull => true
  | _ => false
  end.

(** The entries [buildURL] appends to its [URLSearchParams], in
    [Object.entries] order. *)
Fixpoint appended_params (params : list (string * JsVal)) : list (string * string) :=
  match params with
  | [] => []
  | (key, value) :: rest =>
      if is_nullish value then appended_params rest
      else (key, Js.to_string value) :: appended_params rest
  end.

Definition buildURL (url : string) (params : option (list (string * JsVal))) : string :=
  match params with
  | None => url
  | Some params =>
      let queryString := Js.urlencoded (appended_params params) in
      if String.eqb queryString EmptyString then url
      else
        let separator := if Js.includes_char "?"%char url then "&" else "?" in
        url +:+ separator +:+ queryString
  end.

Definition isPlainObject (value : JsVal) : bool :=
  match value with
  | VObj _ | VBlob _ _ | VArrayBuffer _ | VFormData _ | VURLSearchParams _
  | VReadableStream _ => true
  | _ => false
  end.

Definition isArray (value : JsVal) : bool :=
  match value with
  | VArr _ => true
  | _ => false
  end.

(** [serializeBody]; the result [VUndefined] is "no body". *)
Definition serializeBody (body : JsVal) : JsVal :=
  match body with
  | VUndefined | VNull => VUndefined
  | VStr _ | VBlob _ _ | VArrayBuffer _ | VFormData _ | VURLSearchParams _
  | VReadableStream _ => body
  | _ =>
      if isPlainObject body || isArray body then
        match Js.json_stringify body with
        | Some s => VStr s
        | None => VUndefined
        end
      else VStr (Js.to_string body)
  end.

(** [getContentType]; [None] is [undefined]. *)
Definition getContentType (body : JsVal) : option string :=
  match body with
  | VUndefined | VNull => None
  | VStr _ => Some "text/plain"
  | VFormData _ => None
  | VURLSearchParams _ => Some "application/x-www-form-urlencoded"
  | VBlob type _ => Some (if String.eqb type EmptyString then "application/octet-stream" else type)
  | VArrayBuffer _ => Some "application/octet-stream"
  | _ => if isPlainObject body || isArray body then Some "application/json" else None
  end.

Definition defaultRetryOn : list Z := [408; 429; 500; 502; 503; 504].

Definition shouldRetry (status : Z) (retryOn : option (list Z)) : bool :=
  let codes := match retryOn with Some l => l | None => defaultRetryOn end in
  existsb (Z.eqb status) codes.


(** ** types.ts *)

(** An optional property of an object literal. *)
Inductive Slot (T : Type) : Type :=
| Absent
| Undef
| Val (v : T).
Arguments Absent {T}.
Arguments Undef {T}.
Arguments Val {T} v.

(** Reading a property: [undefined] unless it holds a value. *)
Definition slot_get {T : Type} (s : Slot T) : option T :=
  match s with
  | Val v => Some v
  | _ => None
  end.

(** [s ?? d]. *)
Definition slot_or {T : Type} (s : Slot T) (d : T) : T :=
  match s with
  | Val v => v
  | _ => d
  end.

(** One property of [{ ...base, ...override }]. *)
Definition spread {T : Type} (base override : Slot T) : Slot T :=
  match override with
  | Absent => base
  | _ => override
  end.

(** The result of a call that may throw. *)
Inductive Try (E A : Type) : Type :=
| Ok (a : A)
| Throw (e : E).
Arguments Ok {E A} a.
Arguments Throw {E A} e.

(** A thrown value that is not an instance of [FetchError]: an [Error]
    with its name and message, or any other value. *)
Inductive Foreign : Type :=
| ErrorObj (name message : string)
| Raised (v : JsVal).

(** A body reader of the transport's response; the argument tells whether
    the body was read before. *)
Definition BodyReader (A : Type) : Type := bool -> Try Foreign A.

(** The transport's [Response], as the wrapper uses it. *)
Record Response : Type := mkResponse {
  resp_ok : bool;
  resp_status : Z;
  resp_statusText : string;
  resp_headers : gmap string string;
  resp_url : string;
  resp_json : BodyReader JsVal;
  resp_text : BodyReader string;
  resp_blob : BodyReader JsVal;
  resp_arrayBuffer : BodyReader JsVal;
  resp_formData : BodyReader JsVal
}.

(** [FetchResponse<T>]. *)
Record FetchResponse : Type := mkFetchResponse {
  fr_data : JsVal;
  fr_status : Z;
  fr_statusText : string;
  fr_headers : gmap string string;
  fr_raw : Response;
  fr_url : string;
  fr_ok : bool
}.

(** The class [FetchError] and its subclass [TimeoutError], whose
    constructor passes only the message on. *)
Inductive FetchError : Type :=
| FetchErrorClass (message : string) (response : option Response)
    (status : option Z) (statusText : option string) (data : option JsVal)
| TimeoutError (message : string) (timeoutMs : Z).

Definition fe_message (e : FetchError) : string :=
  match e with
  | FetchErrorClass m _ _ _ _ => m
  | TimeoutError m _ => m
  end.

Definition fe_status (e : FetchError) : option Z :=
  match e with
  | FetchErrorClass _ _ st _ _ => st
  | TimeoutError _ _ => None
  end.

Definition fe_name (e : FetchError) : string :=
  match e with
  | FetchErrorClass _ _ _ _ _ => "FetchError"
  | TimeoutError _ _ => "TimeoutError"
  end.

Definition is_TimeoutError (e : FetchError) : bool :=
  match e with
  | TimeoutError _ _ => true
  | _ => false
  end.

(** Anything a [catch] clause of the wrapper can receive. *)
Inductive Thrown : Type :=
| ThrFetchError (e : FetchError)
| ThrForeign (f : Foreign).

Definition Outcome (A : Type) : Type := Try Thrown A.

(** [Result<T, E>] as the object literal it is at run time: both the
    [data] and the [error] property exist, and [None] is [null]. *)
Record Result : Type := mkResult {
  success : bool;
  data : option FetchResponse;
  error : option FetchError
}.

Inductive ValidateStatus : Type :=
| VSBool (b : bool)
| VSFun (f : Z -> Outcome bool).

Inductive HeadersInit : Type :=
| HInitHeaders (h : gmap string string)
| HInitArray (l : list (string * string))
| HInitRecord (l : list (string * string)).

Record Retry : Type := mkRetry {
  count : Slot Z;
  delay : Slot Z;
  backoff : Slot Z;
  retryOn : Slot (list Z)
}.

(** The properties of a configuration object that a request hook may
    read and rewrite: those of [FetchBaseConfig] and [FetchConfig] but
    the two request hooks, which are read from the configuration a hook
    receives and never from the one it returns.  [rest] holds the other
    properties of [RequestInit]. *)
Record Settings : Type := mkSettings {
  method : Slot string;
  body : Slot JsVal;
  params : Slot (list (string * JsVal));
  timeout : Slot Z;
  baseURL : Slot string;
  headers : Slot HeadersInit;
  responseType : Slot string;
  parseJson : Slot bool;
  validateStatus : Slot ValidateStatus;
  retry : Slot Retry;
  transformResponse : Slot (Response -> JsVal -> Outcome JsVal);
  onResponse : Slot (FetchResponse -> Outcome FetchResponse);
  onError : Slot (FetchError -> Outcome unit);
  signal : Slot string;
  rest : gmap string JsVal
}.

Record Config : Type := mkConfig {
  settings :> Settings;
  transformRequest : Slot (Settings -> Outcome Settings);
  onRequest : Slot (Settings -> Outcome Settings)
}.

(** The object literal [{}]. *)
Definition emptyRetry : Retry := mkRetry Absent Absent Absent Absent.

Definition emptySettings : Settings :=
  mkSettings Absent Absent Absent Absent Absent Absent Absent Absent Absent
    Absent Absent Absent Absent Absent ∅.

Definition emptyConfig : Config := mkConfig emptySettings Absent Absent.

(** ** utils.ts: headers and configuration merging *)

(** Every character of a string satisfies a test. *)
Fixpoint string_forall (p : ascii -> bool) (s : string) : bool :=
  match s with
  | EmptyString => true
  | String c rest => p c && string_forall p rest
  end.

(** *** The platform's [Headers] class

    [Headers.set] follows the Fetch standard: both arguments are
    converted to byte strings, the value loses its leading and trailing
    HTTP whitespace, and a name that is not a token or a value that holds
    a NUL, a line feed or a carriage return is refused with a
    [TypeError]. *)

(** Tab, line feed, carriage return and space. *)
Definition http_whitespace (c : ascii) : bool :=
  let n := N_of_ascii c in
  ((n =? 9) || (n =? 10) || (n =? 13) || (n =? 32))%N.

Fixpoint strip_leading_whitespace (s : string) : string :=
  match s with
  | EmptyString => EmptyString
  | String c rest => if http_whitespace c then strip_leading_whitespace rest else s
  end.

Fixpoint strip_trailing_whitespace (s : string) : string :=
  match s with
  | EmptyString => EmptyString
  | String c rest =>
      match strip_trailing_whitespace rest with
      | EmptyString => if http_whitespace c then EmptyString else String c EmptyString
      | kept => String c kept
      end
  end.

(** The value a [Headers] object stores for a given one. *)
Definition normalize_value (value : string) : string :=
  strip_trailing_whitespace (strip_leading_whitespace value).

(** The characters of a token: letters, digits and
    [! # $ % & ' * + - . ^ _ ` | ~]. *)
Definition token_char (c : ascii) : bool :=
  let n := N_of_ascii c in
  (Js.is_ascii_alnum c
   || (n =? 33) || (n =? 35) || (n =? 36) || (n =? 37) || (n =? 38) || (n =? 39)
   || (n =? 42) || (n =? 43) || (n =? 45) || (n =? 46) || (n =? 94) || (n =? 95)
   || (n =? 96) || (n =? 124) || (n =? 126))%N.

Definition is_header_name (name : string) : bool :=
  negb (String.eqb name EmptyString) && string_forall token_char name.

(** Tested on the normalized value. *)
Definition is_header_value (value : string) : bool :=
  string_forall
    (fun c => let n := N_of_ascii c in negb ((n =? 0) || (n =? 10) || (n =? 13))%N)
    value.

(** A string converts to a byte string when none of its characters is
    above U+00FF, that is, when its UTF-8 encoding has no byte from 0xC4
    on. *)
Definition is_byte_string (s : string) : bool :=
  string_forall (fun c => (N_of_ascii c <? 196)%N) s.

(** The pairs [Headers.set] takes. *)
Definition accepted (entry : string * string) : bool :=
  is_byte_string (fst entry) && is_byte_string (snd entry)
  && is_header_name (fst entry) && is_header_value (normalize_value (snd entry)).

(** The [TypeError] of a refused pair; its message is the platform's
    own. *)
Definition invalid_header : Foreign :=
  ErrorObj "TypeError" "Invalid header name or value".

(** [merged.set(key, value)]: names are matched without regard to ASCII
    case, so the object is the map from its lower-case names to their
    values. *)
Definition headers_set (merged : gmap string string) (entry : string * string)
  : Try Foreign (gmap string string) :=
  if accepted entry
  then Ok (<[Js.lower (fst entry) := normalize_value (snd entry)]> merged)
  else Throw invalid_header.

Definition headers_get (name : string) (h : gmap string string) : option string :=
  h !! Js.lower name.

(** The pairs that [forEach] or [Object.entries] visits.  The order in
    which [forEach] visits a [Headers] object does not matter to [set],
    since its names differ. *)
Definition header_entries (init : HeadersInit) : list (string * string) :=
  match init with
  | HInitHeaders h => map_to_list h
  | HInitArray l => l
  | HInitRecord l => l
  end.

(** [entries.forEach(([key, value]) => merged.set(key, value))]: the
    first refused pair ends the loop. *)
Fixpoint set_each (entries : list (string * string)) (merged : gmap string string)
  : Try Foreign (gmap string string) :=
  match entries with
  | [] => Ok merged
  | entry :: later =>
      match headers_set merged entry with
      | Ok merged => set_each later merged
      | Throw f => Throw f
      end
  end.

(** The outer [forEach] of [mergeHeaders]. *)
Fixpoint merge_each (headersList : list (option HeadersInit))
  (merged : gmap string string) : Try Foreign (gmap string string) :=
  match headersList with
  | [] => Ok merged
  | None :: later => merge_each later merged
  | Some init :: later =>
      match set_each (header_entries init) merged with
      | Ok merged => merge_each later merged
      | Throw f => Throw f
      end
  end.

Definition mergeHeaders (headersList : list (option HeadersInit))
  : Try Foreign (gmap string string) :=
  merge_each headersList ∅.

(** [target\[key\] = value] on an object kept in [Object.entries] order. *)
Fixpoint obj_set {V : Type} (target : list (string * V)) (key : string) (value : V)
  : list (string * V) :=
  match target with
  | [] => [(key, value)]
  | (k, v) :: rest =>
      if String.eqb k key then (k, value) :: rest
      else (k, v) :: obj_set rest key value
  end.

Fixpoint obj_get {V : Type} (obj : list (string * V)) (key : string) : option V :=
  match obj with
  | [] => None
  | (k, v) :: rest => if String.eqb k key then Some v else obj_get rest key
  end.

(** [{ ...target, ...source }] where [source] may be [undefined]. *)
Definition obj_assign {V : Type} (target : list (string * V))
  (source : option (list (string * V))) : list (string * V) :=
  match source with
  | None => target
  | Some entries => fold_left (fun acc kv => obj_set acc (fst kv) (snd kv)) entries target
  end.

Definition retry_assign (target : Retry) (source : option Retry) : Retry :=
  match source with
  | None => target
  | Some r =>
      mkRetry (spread (count target) (count r)) (spread (delay target) (delay r))
        (spread (backoff target) (backoff r)) (spread (retryOn target) (retryOn r))
  end.

(** [mergeConfig]; building the merged [Headers] is the one step that
    may throw. *)
Definition mergeConfig (base override : option Config) : Outcome Config :=
  match base with
  | None => Ok (match override with Some o => o | None => emptyConfig end)
  | Some base =>
      match override with
      | None => Ok base
      | Some override =>
          match mergeHeaders [slot_get (headers base); slot_get (headers override)] with
          | Throw f => Throw (ThrForeign f)
          | Ok merged =>
              Ok (mkConfig
                    (mkSettings
                       (spread (method base) (method override))
                       (spread (body base) (body override))
                       (Val (obj_assign (obj_assign [] (slot_get (params base)))
                               (slot_get (params override))))
                       (spread (timeout base) (timeout override))
                       (spread (baseURL base) (baseURL override))
                       (Val (HInitHeaders merged))
                       (spread (responseType base) (responseType override))
                       (spread (parseJson base) (parseJson override))
                       (spread (validateStatus base) (validateStatus override))
                       (Val (retry_assign (retry_assign emptyRetry (slot_get (retry base)))
                               (slot_get (retry override))))
                       (spread (transformResponse base) (transformResponse override))
                       (spread (onResponse base) (onResponse override))
                       (spread (onError base) (onError override))
                       (spread (signal base) (signal override))
                       (rest override ∪ rest base))
                    (spread (transformRequest base) (transformRequest override))
                    (spread (onRequest base) (onRequest override)))
          end
      end
  end.

(** ** core.ts: the [Fetcher] class *)

(** What one call of the transport looks like from outside: how long it
    took to settle, and the response it resolved to or the value it
    rejected with.  Every call settles. *)
Record NetReply : Type := mkNetReply {
  latency : Z;
  settled : Outcome Response
}.

(** The imported [fetch]; the first argument numbers the attempt of the
    current [request] call, so that a transport may answer each attempt
    differently. *)
Definition Transport : Type := nat -> string -> Settings -> NetReply.

(** The observable events of one [request] call, in program order. *)
Inductive Event : Type :=
| EvPerform (attempt : nat)
| EvSetTimeout (ms : Z)
| EvFetch (url : string) (init : Settings)
| EvClearTimeout
| EvSleep (ms : Z)
| EvOnError (e : FetchError).

(** Computations that may throw and that log events. *)
Definition M (A : Type) : Type := (Outcome A * list Event)%type.

Definition ret {A : Type} (a : A) : M A := (Ok a, []).
Definition throw {A : Type} (t : Thrown) : M A := (Throw t, []).
Definition emit (e : Event) : M unit := (Ok tt, [e]).
Definition lift {A : Type} (o : Outcome A) : M A := (o, []).

Definition lift_foreign {A : Type} (o : Try Foreign A) : M A :=
  match o with
  | Ok a => (Ok a, [])
  | Throw f => (Throw (ThrForeign f), [])
  end.

Definition bind {A B : Type} (m : M A) (k : A -> M B) : M B :=
  match m with
  | (Ok a, t) => let '(r, t') := k a in (r, (t ++ t')%list)
  | (Throw e, t) => (Throw e, t)
  end.

(** [try { m } catch (error) { handler error }]. *)
Definition try_catch {A : Type} (m : M A) (handler : Thrown -> M A) : M A :=
  match m with
  | (Ok a, t) => (Ok a, t)
  | (Throw e, t) => let '(r, t') := handler e in (r, (t ++ t')%list)
  end.

Notation "'let*' x ':=' m 'in' k" := (bind m (fun x => k))
  (at level 10, x name, m at level 100, k at level 200).
Notation "m ';;' k" := (bind m (fun _ => k))
  (at level 100, k at level 200, right associativity).

(** [s.replace(/\/$/, '')]. *)
Fixpoint strip_trailing_slash (s : string) : string :=
  match s with
  | EmptyString => EmptyString
  | String c rest =>
      match rest with
      | EmptyString => if Ascii.eqb c "/"%char then EmptyString else s
      | _ => String c (strip_trailing_slash rest)
      end
  end.

(** [s.replace(/^\//, '')]. *)
Definition strip_leading_slash (s : string) : string :=
  match s with
  | String c rest => if Ascii.eqb c "/"%char then rest else s
  | EmptyString => EmptyString
  end.

(** The value of the [body] property. *)
Definition body_value (s : Slot JsVal) : JsVal :=
  match s with
  | Val v => v
  | _ => VUndefined
  end.

(** The property [body: v] of an object literal. *)
Definition body_slot (v : JsVal) : Slot JsVal :=
  match v with
  | VUndefined => Undef
  | _ => Val v
  end.

(** [{ ...config, body, headers }]. *)
Definition with_body_headers (c : Settings) (b : JsVal) (h : gmap string string)
  : Settings :=
  mkSettings (method c) (body_slot b) (params c) (timeout c) (baseURL c)
    (Val (HInitHeaders h)) (responseType c) (parseJson c) (validateStatus c)
    (retry c) (transformResponse c) (onResponse c) (onError c) (signal c) (rest c).

(** The second argument of the transport call:
    [{ method: method ?? 'GET', headers, body, signal: controller.signal, ...restConfig }]. *)
Definition fetch_init (c : Settings) : Settings :=
  mkSettings (Val (slot_or (method c) "GET")) (body c) (params c) (timeout c)
    (baseURL c) (headers c) (responseType c) (parseJson c) (validateStatus c)
    (retry c) (transformResponse c) (onResponse c) (onError c)
    (Val "controller.signal") (rest c).

(** [{ ...config, method }] and [{ ...config, method, body }] of the
    convenience wrappers; [config] may be [undefined]. *)
Definition with_method (config : option Config) (m : string) : Config :=
  let c := match config with Some c => c | None => emptyConfig end in
  mkConfig
    (mkSettings (Val m) (body c) (params c) (timeout c) (baseURL c) (headers c)
       (responseType c) (parseJson c) (validateStatus c) (retry c)
       (transformResponse c) (onResponse c) (onError c) (signal c) (rest c))
    (transformRequest c) (onRequest c).

Definition with_method_body (config : option Config) (m : string) (b : JsVal)
  : Config :=
  let c := match config with Some c => c | None => emptyConfig end in
  mkConfig
    (mkSettings (Val m) (body_slot b) (params c) (timeout c) (baseURL c) (headers c)
       (responseType c) (parseJson c) (validateStatus c) (retry c)
       (transformResponse c) (onResponse c) (onError c) (signal c) (rest c))
    (transformRequest c) (onRequest c).

(** [createError]. *)
Definition createError (error : Thrown) : FetchError :=
  match error with
  | ThrFetchError e => e
  | ThrForeign (ErrorObj _ message) => FetchErrorClass message None None None None
  | ThrForeign (Raised v) => FetchErrorClass (Js.to_string v) None None None None
  end.

(** [parseResponse]: whatever the body reader throws is replaced by a
    [FetchError] that carries the response and its status. *)
Definition parseResponse (response : Response) (config : Settings) : Outcome JsVal :=
  let responseType := slot_or (responseType config) "json" in
  let parseJson := slot_or (parseJson config) true in
  let text := match resp_text response false with
              | Ok s => Ok (VStr s)
              | Throw f => Throw f
              end in
  let read :=
    if String.eqb responseType "json" then
      if parseJson then resp_json response false else text
    else if String.eqb responseType "text" then text
    else if String.eqb responseType "blob" then resp_blob response false
    else if String.eqb responseType "arrayBuffer" then resp_arrayBuffer response false
    else if String.eqb responseType "formData" then resp_formData response false
    else resp_json response false in
  match read with
  | Ok v => Ok v
  | Throw _ =>
      Throw (ThrFetchError
               (FetchErrorClass ("Failed to parse response as " +:+ responseType)
                  (Some response) (Some (resp_status response))
                  (Some (resp_statusText response)) None))
  end.

(** The verdict of the status validation in [performRequest]:
    [validateStatus ?? true], then a function is called with the status,
    [true] asks the transport's [ok] flag, and [false] accepts every
    status. *)
Definition isValid (config : Settings) (response : Response) : Outcome bool :=
  let validateStatus := slot_or (validateStatus config) (VSBool true) in
  match validateStatus with
  | VSFun f => f (resp_status response)
  | VSBool b => if b then Ok (resp_ok response) else Ok true
  end.

(** The timer fires while the transport call is pending. *)
Definition timer_fires (timer : option Z) (reply : NetReply) : bool :=
  match timer with
  | Some ms => ms <? latency reply
  | None => false
  end.

Definition clear_timer (timer : option Z) : M unit :=
  match timer with
  | Some _ => emit EvClearTimeout
  | None => ret tt
  end.

Definition run_hook {A : Type} (hook : Slot (A -> Outcome A)) (a : A) : M A :=
  match hook with
  | Val h => lift (h a)
  | _ => ret a
  end.

Section Fetcher.

(** The imported transport and the instance's [this.config]. *)
Variable fetch : Transport.
Variable this_config : Config.

(** The [try] block of [performRequest]. *)
Definition perform_try (attempt : nat) (urlWithParams : string)
  (finalConfig : Settings) (timer : option Z) : M FetchResponse :=
  let init := fetch_init finalConfig in
  emit (EvFetch urlWithParams init) ;;
  let reply := fetch attempt urlWithParams init in
  let* response :=
    if timer_fires timer reply
    then throw (ThrForeign (ErrorObj "AbortError" "This operation was aborted"))
    else lift (settled reply) in
  clear_timer timer ;;
  let* valid := lift (isValid finalConfig response) in
  if negb valid then
    let* errorData :=
      match parseResponse response finalConfig with
      | Ok d => ret d
      | Throw _ =>
          lift_foreign (match resp_text response true with
                        | Ok s => Ok (VStr s)
                        | Throw f => Throw f
                        end)
      end in
    throw (ThrFetchError
             (FetchErrorClass
                ("Request failed with status " +:+ Js.num_to_string (resp_status response))
                (Some response) (Some (resp_status response))
                (Some (resp_statusText response)) (Some errorData)))
  else
    let* data := lift (parseResponse response finalConfig) in
    let result :=
      mkFetchResponse data (resp_status response) (resp_statusText response)
        (resp_headers response) response (resp_url response) (resp_ok response) in
    let* result := run_hook (onResponse this_config) result in
    match transformResponse finalConfig with
    | Val f =>
        let* d := lift (f response (fr_data result)) in
        ret (mkFetchResponse d (fr_status result) (fr_statusText result)
               (fr_headers result) (fr_raw result) (fr_url result) (fr_ok result))
    | _ => ret result
    end.

(** The [catch] block of [performRequest]. *)
Definition perform_catch (finalConfig : Settings) (timer : option Z)
  (error : Thrown) : M FetchResponse :=
  clear_timer timer ;;
  match error with
  | ThrFetchError _ => throw error
  | ThrForeign (ErrorObj name _) =>
      if String.eqb name "AbortError" then
        throw (ThrFetchError
                 (TimeoutError
                    ("Request timeout after "
                       +:+ match timeout finalConfig with
                           | Val ms => Js.num_to_string ms
                           | _ => "undefined"
                           end +:+ "ms")
                    (slot_or (timeout finalConfig) 0)))
      else throw (ThrFetchError (createError error))
  | ThrForeign (Raised _) => throw (ThrFetchError (createError error))
  end.

Definition performRequest (attempt : nat) (url : string) (config : Config)
  : M FetchResponse :=
  let baseURL := slot_or (baseURL config) EmptyString in
  let fullURL :=
    if String.eqb baseURL EmptyString then url
    else strip_trailing_slash baseURL +:+ "/" +:+ strip_leading_slash url in
  let urlWithParams := buildURL fullURL (slot_get (params config)) in
  let serializedBody := serializeBody (body_value (body config)) in
  let contentType := getContentType (body_value (body config)) in
  let* headers :=
    lift_foreign
      (mergeHeaders
         [ match contentType with
           | Some ct =>
               if String.eqb ct EmptyString then None
               else Some (HInitRecord [("Content-Type", ct)])
           | None => None
           end;
           slot_get (headers config) ]) in
  let finalConfig := with_body_headers config serializedBody headers in
  let* finalConfig := run_hook (onRequest this_config) finalConfig in
  let* finalConfig := run_hook (transformRequest config) finalConfig in
  let timer := slot_get (timeout finalConfig) in
  match timer with
  | Some ms => emit (EvSetTimeout ms)
  | None => ret tt
  end ;;
  try_catch (perform_try attempt urlWithParams finalConfig timer)
    (perform_catch finalConfig timer).

(** [error instanceof FetchErrorClass && error.status]: the error is a
    [FetchError] whose status is a truthy number. *)
Definition has_status (error : Thrown) : option Z :=
  match error with
  | ThrFetchError e =>
      match fe_status e with
      | Some st => if st =? 0 then None else Some st
      | None => None
      end
  | ThrForeign _ => None
  end.

(** [mergedConfig.retry?.delay ?? 1000] and
    [mergedConfig.retry?.backoff ?? 1]. *)
Definition base_delay (mergedConfig : Config) : Z :=
  match slot_get (retry mergedConfig) with
  | Some r => slot_or (delay r) 1000
  | None => 1000
  end.

Definition backoff_factor (mergedConfig : Config) : Z :=
  match slot_get (retry mergedConfig) with
  | Some r => slot_or (backoff r) 1
  | None => 1
  end.

(** [baseDelay * Math.pow(backoff, attempt)]. *)
Definition retry_delay (mergedConfig : Config) (attempt : nat) : Z :=
  base_delay mergedConfig * backoff_factor mergedConfig ^ Z.of_nat attempt.

(** [mergedConfig.retry?.count ?? 0] and [mergedConfig.retry?.retryOn]. *)
Definition retry_count (mergedConfig : Config) : Z :=
  match slot_get (retry mergedConfig) with
  | Some r => slot_or (count r) 0
  | None => 0
  end.

Definition retry_codes (mergedConfig : Config) : option (list Z) :=
  match slot_get (retry mergedConfig) with
  | Some r => slot_get (retryOn r)
  | None => None
  end.

(** The values [attempt] takes in
    [for (let attempt = 0; attempt <= retryCount; attempt++)]. *)
Definition attempt_range (retryCount : Z) : list nat :=
  seq 0 (Z.to_nat (retryCount + 1)).

(** The loop of [executeRequest] over the remaining values of
    [attempt], followed by [throw lastError]. *)
Fixpoint attempt_loop (url : string) (mergedConfig : Config)
  (attempts : list nat) (lastError : option Thrown) : M FetchResponse :=
  match attempts with
  | [] =>
      throw (match lastError with
             | Some e => e
             | None => ThrForeign (Raised VUndefined)
             end)
  | attempt :: later =>
      match performRequest attempt url mergedConfig with
      | (Ok response, t) => (Ok response, EvPerform attempt :: t)
      | (Throw error, t) =>
          if Z.of_nat attempt =? retry_count mergedConfig then
            (Throw error, EvPerform attempt :: t)
          else if match has_status error with
                  | Some st => negb (shouldRetry st (retry_codes mergedConfig))
                  | None => false
                  end then
            (Throw error, EvPerform attempt :: t)
          else
            let '(r, t') := attempt_loop url mergedConfig later (Some error) in
            (r, (EvPerform attempt :: t ++ EvSleep (retry_delay mergedConfig attempt) :: t')%list)
      end
  end.

Definition executeRequest (url : string) (config : option Config)
  : M FetchResponse :=
  let* mergedConfig := lift (mergeConfig (Some this_config) config) in
  attempt_loop url mergedConfig (attempt_range (retry_count mergedConfig)) None.

Definition request (url : string) (config : option Config) : M Result :=
  match executeRequest url config with
  | (Ok response, t) => (Ok (mkResult true (Some response) None), t)
  | (Throw error, t) =>
      let fetchError :=
        match error with
        | ThrFetchError e => e
        | _ => createError error
        end in
      let '(r, t') :=
        match onError this_config with
        | Val h => emit (EvOnError fetchError) ;; lift (h fetchError)
        | _ => ret tt
        end ;;
        ret (mkResult false None (Some fetchError)) in
      (r, (t ++ t')%list)
  end.

Definition get (url : string) (config : option Config) : M Result :=
  request url (Some (with_method config "GET")).

Definition post (url : string) (body : JsVal) (config : option Config) : M Result :=
  request url (Some (with_method_body config "POST" body)).

Definition put (url : string) (body : JsVal) (config : option Config) : M Result :=
  request url (Some (with_method_body config "PUT" body)).

Definition patch (url : string) (body : JsVal) (config : option Config) : M Result :=
  request url (Some (with_method_body config "PATCH" body)).

Definition delete (url : string) (config : option Config) : M Result :=
  request url (Some (with_method config "DELETE")).

(** [extend]: the configuration of the new instance. *)
Definition extend (config : option Config) : Outcome Config :=
  mergeConfig (Some this_config) config.

End Fetcher.

(** [createFetch]: the constructor's default parameter supplies [{}]. *)
Definition createFetch (config : option Config) : Config :=
  match config with
  | Some c => c
  | None => emptyConfig
  end.

(** ** polyfill.ts *)

Module Polyfill.

(** A function bound to [globalThis.fetch]: the platform's own, or the
    wrapper that [polyfillFetch] builds around a fetcher. *)
Inductive FetchImpl : Type :=
| NativeFetch (name : string)
| Wrapper (fetcher : Config).

(** The property [globalThis.fetch]. *)
Inductive Binding : Type :=
| Missing
| NotCallable (v : JsVal)
| Callable (f : FetchImpl).

(** The process-wide state: the global binding and the module variable
    [originalFetch]. *)
Record Globals : Type := mkGlobals {
  globalThis_fetch : Binding;
  originalFetch : option FetchImpl
}.

Definition hasFetch (g : Globals) : bool :=
  match globalThis_fetch g with
  | Callable _ => true
  | _ => false
  end.

Definition polyfillFetch (config : option Config) (g : Globals) : bool * Globals :=
  let original :=
    match originalFetch g, globalThis_fetch g with
    | None, Callable f => Some f
    | o, _ => o
    end in
  (true, mkGlobals (Callable (Wrapper (createFetch config))) original).

Definition restoreFetch (g : Globals) : bool * Globals :=
  match originalFetch g with
  | None => (false, mkGlobals Missing None)
  | Some f => (true, mkGlobals (Callable f) None)
  end.

Definition isPolyfilled (g : Globals) : bool :=
  match originalFetch g with
  | Some _ => true
  | None => false
  end.

(** The wrapper is the current global binding. *)
Definition installed (g : Globals) : Prop :=
  exists fetcher, globalThis_fetch g = Callable (Wrapper fetcher).

End Polyfill.

(** ** The specification's reading of the status validation *)

(** Written from the specification's words, to be compared with
    [isValid]: a predicate is called with the status, a boolean is the
    verdict itself, and without a setting the transport's [ok] flag
    decides. *)
Definition validity_as_specified (config : Settings) (response : Response)
  : Outcome bool :=
  match validateStatus config with
  | Val (VSFun f) => f (resp_status response)
  | Val (VSBool b) => Ok b
  | _ => Ok (resp_ok response)
  end.

(** ** Reading event logs *)

(** The attempts and the waits of a log, without the events inside an
    attempt. *)
Definition is_schedule (e : Event) : bool :=
  match e with
  | EvPerform _ | EvSleep _ => true
  | _ => false
  end.

Definition schedule (t : list Event) : list Event := List.filter is_schedule t.

(** A computation is quiet when it neither starts an attempt nor waits:
    both happen in [executeRequest] only. *)
Definition quiet {X : Type} (m : M X) : Prop := schedule (snd m) = [].

Definition is_fetch (e : Event) : bool :=
  match e with
  | EvFetch _ _ => true
  | _ => false
  end.

(** The number of transport calls in a log. *)
Definition network_calls (t : list Event) : nat :=
  List.length (List.filter is_fetch t).

(** The invariant of a [Result]: exactly one of [data] and [error] is
    populated, and [success] tells which. *)
Definition result_invariant (r : Result) : Prop :=
  (success r = true /\ data r <> None /\ error r = None)
  \/ (success r = false /\ data r = None /\ error r <> None).

(** The error interceptor is absent, or it returns for every error. *)
Definition onError_returns (this_config : Config) : Prop :=
  forall h e, onError this_config = Val h -> exists u, h e = Ok u.

(** The pairs of an optional [HeadersInit], in the order [mergeHeaders]
    visits them, and the entries of an optional object. *)
Definition header_pairs (init : Slot HeadersInit) : list (string * string) :=
  match slot_get init with
  | Some init => header_entries init
  | None => []
  end.

Definition entries_of {V : Type} (obj : Slot (list (string * V))) : list (string * V) :=
  match slot_get obj with
  | Some entries => entries
  | None => []
  end.

(** The value of the last entry with a given key. *)
Fixpoint last_entry {V : Type} (entries : list (string * V)) (key : string) : option V :=
  match entries with
  | [] => None
  | (k, v) :: later =>
      match last_entry later key with
      | Some v' => Some v'
      | None => if String.eqb k key then Some v else None
      end
  end.

(** A pair as a [Headers] object keeps it: the name in lower case, the
    value without the surrounding whitespace. *)
Definition stored (entry : string * string) : string * string :=
  (Js.lower (fst entry), normalize_value (snd entry)).

(** What the last pair with a given name, compared without regard to
    case, gives as a header. *)
Definition last_header (pairs : list (string * string)) (name : string) : option string :=
  last_entry (List.map stored pairs) (Js.lower name).

(** All the pairs of a list of optional initialisers, in order. *)
Definition all_pairs (headersList : list (option HeadersInit)) : list (string * string) :=
  List.concat
    (List.map (fun headers => match headers with
                              | Some init => header_entries init
                              | None => []
                              end) headersList).

(** A property of the retry policy, [undefined] when there is no policy. *)
Definition retry_field {T : Type} (f : Retry -> Slot T) (r : Slot Retry) : Slot T :=
  match r with
  | Val r => f r
  | _ => Absent
  end.

(** ** Sample environments *)

(** A response as the test-suite mocks it: the [ok] flag follows the
    status, [json()] yields [v], and the body can be read once. *)
Definition mockResponse (st : Z) (v : JsVal) : Response :=
  mkResponse ((200 <=? st) && (st <=? 299)) st "status text" ∅
    "https://api.example.com/users"
    (fun _ => Ok v)
    (fun used =>
       if used then Throw (ErrorObj "TypeError" "Body has already been read")
       else Ok "plain text")
    (fun _ => Throw (ErrorObj "TypeError" "not a blob"))
    (fun _ => Throw (ErrorObj "TypeError" "not a buffer"))
    (fun _ => Throw (ErrorObj "TypeError" "not form data")).

(** A transport that answers every attempt with the same status after
    [ms] milliseconds. *)
Definition constTransport (ms st : Z) (v : JsVal) : Transport :=
  fun _ _ _ => mkNetReply ms (Ok (mockResponse st v)).

(** A transport whose every call is rejected. *)
Definition failingTransport : Transport :=
  fun _ _ _ => mkNetReply 5 (Throw (ThrForeign (ErrorObj "TypeError" "Network error"))).

(** [{ timeout, retry: { count, delay, backoff } }]. *)
Definition retryConfig (tmo n d b : Z) : Config :=
  mkConfig
    (mkSettings Absent Absent Absent (Val tmo) Absent Absent Absent Absent Absent
       (Val (mkRetry (Val n) (Val d) (Val b) Absent)) Absent Absent Absent Absent ∅)
    Absent Absent.

(** [{ validateStatus }]. *)
Definition validateConfig (vs : ValidateStatus) : Settings :=
  mkSettings Absent Absent Absent Absent Absent Absent Absent Absent (Val vs)
    Absent Absent Absent Absent Absent ∅.

(** A response whose body is not JSON: [json()] rejects. *)
Definition unparsableResponse (st : Z) : Response :=
  mkResponse ((200 <=? st) && (st <=? 299)) st "status text" ∅
    "https://api.example.com/users"
    (fun _ => Throw (ErrorObj "SyntaxError" "Unexpected token"))
    (fun used =>
       if used then Throw (ErrorObj "TypeError" "Body has already been read")
       else Ok "<html>")
    (fun _ => Throw (ErrorObj "TypeError" "not a blob"))
    (fun _ => Throw (ErrorObj "TypeError" "not a buffer"))
    (fun _ => Throw (ErrorObj "TypeError" "not form data")).

(** [{ onRequest }] with a request interceptor that throws a string. *)
Definition throwingHookConfig : Config :=
  mkConfig emptySettings Absent
    (Val (fun _ => Throw (ThrForeign (Raised (VStr "interceptor failed"))))).

(** A transport whose first call is rejected and whose later calls
    answer 200. *)
Definition flakyTransport : Transport :=
  fun attempt _ _ =>
    match attempt with
    | O => mkNetReply 5 (Throw (ThrForeign (ErrorObj "TypeError" "Network error")))
    | S _ => mkNetReply 5 (Ok (mockResponse 200 (VObj [("name", VStr "John")])))
    end.

(** A transport that reports every call as aborted. *)
Definition abortingTransport : Transport :=
  fun _ _ _ =>
    mkNetReply 5 (Throw (ThrForeign (ErrorObj "AbortError" "The user aborted a request")))
.

(** [{ headers }] with headers given as a plain object. *)
Definition headersConfig (l : list (string * string)) : Config :=
  mkConfig
    (mkSettings Absent Absent Absent Absent Absent (Val (HInitRecord l)) Absent Absent
       Absent Absent Absent Absent Absent Absent ∅)
    Absent Absent.

(** [{ onError }] with an interceptor that returns. *)
Definition observedConfig : Config :=
  mkConfig
    (mkSettings Absent Absent Absent Absent Absent Absent Absent Absent Absent
       Absent Absent Absent (Val (fun _ => Ok tt)) Absent ∅)
    Absent Absent.

(** ** Further readings of the code *)

(** The full URL of [performRequest], before the query is appended:
    [baseURL ? `${baseURL.replace(/\/$/, '')}/${url.replace(/^\//, '')}` : url]. *)
Definition resolveURL (baseURL : Slot string) (url : string) : string :=
  let baseURL := slot_or baseURL EmptyString in
  if String.eqb baseURL EmptyString then url
  else strip_trailing_slash baseURL +:+ "/" +:+ strip_leading_slash url.

(** The header [performRequest] derives from the body, if any. *)
Definition derived_content_type (config : Settings) : option HeadersInit :=
  match getContentType (body_value (body config)) with
  | Some ct =>
      if String.eqb ct EmptyString then None
      else Some (HInitRecord [("Content-Type", ct)])
  | None => None
  end.

(** The headers [performRequest] assembles before the request hooks:
    the content type derived from the body, then the configured headers. *)
Definition assembledHeaders (config : Settings) : Try Foreign (gmap string string) :=
  mergeHeaders [derived_content_type config; slot_get (headers config)].

(** The characters of a serialized query: those the form encoding leaves
    or produces, and the two separators. *)
Definition query_char (c : ascii) : bool :=
  let n := N_of_ascii c in
  (Js.is_ascii_alnum c
   || (n =? 42) || (n =? 45) || (n =? 46) || (n =? 95)
   || (n =? 43) || (n =? 37) || (n =? 61) || (n =? 38))%N.

(** The values [serializeBody] may return: a [BodyInit] or [undefined]. *)
Definition is_BodyInit_or_undefined (v : JsVal) : bool :=
  match v with
  | VUndefined | VStr _ | VBlob _ _ | VArrayBuffer _ | VFormData _
  | VURLSearchParams _ | VReadableStream _ => true
  | _ => false
  end.

(** A [Headers] object keeps its names in lower case. *)
Definition normalised (h : gmap string string) : Prop :=
  forall name value, h !! name = Some value -> Js.lower name = name.

(** What [set] has stored: pairs it accepts, under lower-case names,
    with values it leaves as they are. *)
Definition well_formed (h : gmap string string) : Prop :=
  forall name value,
    h !! name = Some value ->
    Js.lower name = name /\ accepted (name, value) = true
    /\ normalize_value value = value.

(** No key that a JavaScript object would list out of insertion order:
    one made of decimal digits only. *)
Definition digits_only (key : string) : bool :=
  negb (String.eqb key EmptyString)
  && string_forall (fun c => let n := N_of_ascii c in ((48 <=? n) && (n <=? 57))%N) key.

(** The attempts and waits of a request that stops at its attempt
    [first + retries]. *)
Fixpoint retry_schedule (mergedConfig : Config) (first retries : nat) : list Event :=
  match retries with
  | O => [EvPerform first]
  | S r =>
      EvPerform first :: EvSleep (retry_delay mergedConfig first)
        :: retry_schedule mergedConfig (S first) r
  end.

(** The time a log spends waiting between attempts. *)
Fixpoint total_wait (t : list Event) : Z :=
  match t with
  | [] => 0
  | EvSleep ms :: rest => ms + total_wait rest
  | _ :: rest => total_wait rest
  end.

(** The failures after which the loop of [executeRequest] goes on: those
    without a truthy status, and those whose status is retryable. *)
Definition retryable (mergedConfig : Config) (error : Thrown) : bool :=
  match has_status error with
  | Some st => shouldRetry st (retry_codes mergedConfig)
  | None => true
  end.

Definition is_onError (e : Event) : bool :=
  match e with
  | EvOnError _ => true
  | _ => false
  end.

Definition is_timer (e : Event) : bool :=
  match e with
  | EvSetTimeout _ => true
  | _ => false
  end.

(** What holds of every transport call of a log. *)
Definition transport_calls (P : string -> Settings -> Prop) (t : list Event) : Prop :=
  Forall (fun e => match e with EvFetch u init => P u init | _ => True end) t.

(** A request hook is absent or returns. *)
Definition hook_returns {A : Type} (hook : Slot (A -> Outcome A)) : Prop :=
  forall h a, hook = Val h -> exists a', h a = Ok a'.

(** A property of every event a computation logs. *)
Definition log_all {X : Type} (Q : Event -> Prop) (m : M X) : Prop :=
  Forall Q (snd m).

(** The configuration [performRequest] sends, [finalConfig]: the merged
    one with the serialized body and the assembled headers, passed
    through the instance's [onRequest] and then through the call's
    [transformRequest].  Headers the platform refuses, or a hook that
    throws, end the attempt. *)
Definition prepared (this_config config : Config) : Outcome Settings :=
  match assembledHeaders config with
  | Throw f => Throw (ThrForeign f)
  | Ok headers =>
      let assembled :=
        with_body_headers config (serializeBody (body_value (body config))) headers in
      match
        match onRequest this_config with
        | Val h => h assembled
        | _ => Ok assembled
        end
      with
      | Ok intercepted =>
          match transformRequest config with
          | Val h => h intercepted
          | _ => Ok intercepted
          end
      | Throw t => Throw t
      end
  end.

(** The URL [performRequest] calls the transport with. *)
Definition requestURL (config : Config) (url : string) : string :=
  buildURL (resolveURL (baseURL config) url) (slot_get (params config)).

(** The log of the timer that [performRequest] starts. *)
Definition timer_log (timer : option Z) : list Event :=
  match timer with
  | Some ms => [EvSetTimeout ms]
  | None => []
  end.

(** [1 + b + ... + b ^ (n - 1)]. *)
Fixpoint geometric (b : Z) (n : nat) : Z :=
  match n with
  | O => 0
  | S n' => geometric b n' + b ^ Z.of_nat n'
  end.

(** ** polyfill.ts: the installed wrapper *)

Module GlobalFetch.

(** The first argument of [fetch]: a [Request], or anything else. *)
Inductive Input : Type :=
| InRequest (url : string)
| InOther (v : JsVal).

(** [input instanceof Request ? input.url : String(input)]. *)
Definition input_url (input : Input) : string :=
  match input with
  | InRequest u => u
  | InOther v => Js.to_string v
  end.

(** A property written out in an object literal: it exists, also when
    its value is [undefined]. *)
Definition written {T : Type} (s : Slot T) : Slot T :=
  match s with
  | Absent => Undef
  | _ => s
  end.

(** [{ ...init, method: init?.method ?? 'GET', headers: init?.headers,
       body: init?.body, signal: init?.signal }]. *)
Definition fetchConfig (init : option Settings) : Config :=
  let i := match init with Some i => i | None => emptySettings end in
  mkConfig
    (mkSettings (Val (slot_or (method i) "GET")) (written (body i)) (params i)
       (timeout i) (baseURL i) (written (headers i)) (responseType i) (parseJson i)
       (validateStatus i) (retry i) (transformResponse i) (onResponse i) (onError i)
       (written (signal i)) (rest i))
    Absent Absent.

(** The function [polyfillFetch] binds to [globalThis.fetch]: it returns
    the raw response of a successful [Result] and throws the error of a
    failed one.  Reading [raw] of a [null] data is a [TypeError]. *)
Definition wrapper (fetch : Transport) (fetcher : Config) (input : Input)
  (init : option Settings) : M Response :=
  let* result := request fetch fetcher (input_url input) (Some (fetchConfig init)) in
  if success result then
    match data result with
    | Some d => ret (fr_raw d)
    | None => throw (ThrForeign (ErrorObj "TypeError" "Cannot read properties of null"))
    end
  else
    match error result with
    | Some e => throw (ThrFetchError e)
    | None => throw (ThrForeign (Raised VNull))
    end.

(** [polyfillFetch] called once for each configuration of a list. *)
Definition install_all (configs : list (option Config)) (g : Polyfill.Globals)
  : Polyfill.Globals :=
  fold_left (fun g config => snd (Polyfill.polyfillFetch config g)) configs g.

End GlobalFetch.

(** ** index.ts: the default instance *)

Module Index.

(** [export const fetch = createFetch()]. *)
Definition fetch : Config := createFetch None.

End Index.

(** * Properties *)

(** ** URL building *)

Lemma append_not_empty (a b : string) : a <> EmptyString -> a +:+ b <> EmptyString.
Proof. destruct a; [congruence | discriminate]. Qed.

Lemma pair_not_empty (k v : string) :
  Js.form_encode k +:+ "=" +:+ Js.form_encode v <> EmptyString.
Proof. destruct (Js.form_encode k); discriminate. Qed.

Lemma urlencoded_empty (pairs : list (string * string)) :
  String.eqb (Js.urlencoded pairs) EmptyString = true <-> pairs = [].
Proof.
  split.
  - destruct pairs as [|[k v] rest]; [reflexivity|].
    intros H. apply String.eqb_eq in H. exfalso. simpl in H.
    destruct rest.
    + exact (pair_not_empty k v H).
    + exact (append_not_empty _ _ (pair_not_empty k v) H).
  - intros ->. reflexivity.
Qed.

Lemma appended_params_filter (params : list (string * JsVal)) :
  appended_params params
  = List.map (fun kv => (fst kv, Js.to_string (snd kv)))
      (List.filter (fun kv => negb (is_nullish (snd kv))) params).
Proof.
  induction params as [|[k v] rest IH]; [reflexivity|].
  simpl. destruct (is_nullish v); simpl; [exact IH | now rewrite IH].
Qed.

(** C8. [buildURL] leaves out every parameter that is [null] or
    [undefined], turns the others into strings with [String], and appends
    the query with [&] when the URL already holds a [?] and with [?]
    otherwise (an empty query leaves the URL as it is).  So
    [{a: 1, b: null, c: undefined}] appends only [a=1], and
    [buildURL("u?x=1", {a: 1})] is ["u?x=1&a=1"]. *)
Theorem buildURL_query (url : string) (params : list (string * JsVal)) :
  let kept :=
    List.map (fun kv => (fst kv, Js.to_string (snd kv)))
      (List.filter (fun kv => negb (is_nullish (snd kv))) params) in
  let separator := if Js.includes_char "?"%char url then "&" else "?" in
  buildURL url (Some params)
  = match kept with
    | [] => url
    | _ => url +:+ separator +:+ Js.urlencoded kept
    end
  /\ buildURL url (Some [("a", VNum 1); ("b", VNull); ("c", VUndefined)])
     = url +:+ separator +:+ "a=1"
  /\ buildURL "u?x=1" (Some [("a", VNum 1)]) = "u?x=1&a=1".
Proof.
  intros kept separator. split; [|split; reflexivity].
  unfold buildURL. rewrite appended_params_filter. fold kept.
  destruct (String.eqb (Js.urlencoded kept) EmptyString) eqn:E.
  - apply urlencoded_empty in E. now rewrite E.
  - destruct kept; [discriminate E | reflexivity].
Qed.

(** ** Body serialization *)

(** C7. The plain object [{name: "John"}] is serialized to the JSON text
    of that object and gets the content type [application/json]; a string
    passes through unchanged with [text/plain]; a [FormData] passes
    through unchanged with no derived content type; [null] and
    [undefined] give no body and no content type. *)
Theorem serializeBody_getContentType_shapes :
  (serializeBody (VObj [("name", VStr "John")])
     = VStr ("{" +:+ dquote +:+ "name" +:+ dquote +:+ ":" +:+ dquote +:+ "John"
               +:+ dquote +:+ "}")
   /\ getContentType (VObj [("name", VStr "John")]) = Some "application/json")
  /\ (forall s : string,
        serializeBody (VStr s) = VStr s /\ getContentType (VStr s) = Some "text/plain")
  /\ (forall fields : list (string * string),
        serializeBody (VFormData fields) = VFormData fields
        /\ getContentType (VFormData fields) = None)
  /\ (serializeBody VNull = VUndefined /\ getContentType VNull = None)
  /\ (serializeBody VUndefined = VUndefined /\ getContentType VUndefined = None).
Proof.
  repeat split; reflexivity.
Qed.

(** ** Status validation *)

(** C5, as the specification states it, fails for both booleans: with
    [validateStatus: false] the code accepts a 404 response, which a
    boolean used as the verdict would reject, and with
    [validateStatus: true] the code rejects it, which a boolean used as
    the verdict would accept. *)
Lemma validateStatus_boolean_is_not_the_verdict :
  (isValid (validateConfig (VSBool false)) (mockResponse 404 VNull) = Ok true
   /\ validity_as_specified (validateConfig (VSBool false)) (mockResponse 404 VNull)
      = Ok false)
  /\ (isValid (validateConfig (VSBool true)) (mockResponse 404 VNull) = Ok false
      /\ validity_as_specified (validateConfig (VSBool true)) (mockResponse 404 VNull)
         = Ok true).
Proof.
  repeat split.
Qed.

(** C5, amended.  A [validateStatus] function decides by its value at the
    status; [validateStatus: true] and an unset [validateStatus] both ask
    the transport's [ok] flag; [validateStatus: false] switches the
    validation off, so every status is valid. *)
Theorem isValid_cases (config : Settings) (response : Response) :
  (forall f, validateStatus config = Val (VSFun f) ->
     isValid config response = f (resp_status response))
  /\ (validateStatus config = Val (VSBool true) \/ slot_get (validateStatus config) = None ->
      isValid config response = Ok (resp_ok response))
  /\ (validateStatus config = Val (VSBool false) ->
      isValid config response = Ok true).
Proof.
  unfold isValid. repeat split.
  - intros f ->. reflexivity.
  - intros [-> | H]; [reflexivity|].
    destruct (validateStatus config); [reflexivity | reflexivity | discriminate H].
  - intros ->. reflexivity.
Qed.

Lemma isValid_cases_witness :
  isValid (validateConfig (VSFun (fun st => Ok (st =? 404)))) (mockResponse 404 VNull)
    = Ok true
  /\ isValid (validateConfig (VSBool true)) (mockResponse 404 VNull) = Ok false
  /\ isValid emptySettings (mockResponse 204 VNull) = Ok true
  /\ isValid (validateConfig (VSBool false)) (mockResponse 500 VNull) = Ok true.
Proof.
  split; [|split; [|split]].
  - exact (proj1 (isValid_cases (validateConfig (VSFun (fun st => Ok (st =? 404))))
                    (mockResponse 404 VNull)) _ eq_refl).
  - exact (proj1 (proj2 (isValid_cases (validateConfig (VSBool true))
                           (mockResponse 404 VNull))) (or_introl eq_refl)).
  - exact (proj1 (proj2 (isValid_cases emptySettings (mockResponse 204 VNull)))
             (or_intror eq_refl)).
  - exact (proj2 (proj2 (isValid_cases (validateConfig (VSBool false))
                           (mockResponse 500 VNull))) eq_refl).
Defined.

(** ** The global-fetch polyfill *)

(** C9 fails where no global [fetch] exists (an older Node.js, the case
    the comments of [polyfillFetch] name): the wrapper is installed, yet
    nothing is captured and [isPolyfilled] answers [false]. *)
Theorem polyfill_without_global_fetch_not_reported :
  let g := snd (Polyfill.polyfillFetch None (Polyfill.mkGlobals Polyfill.Missing None)) in
  Polyfill.installed g /\ Polyfill.isPolyfilled g = false.
Proof.
  split; [eexists; reflexivity | reflexivity].
Qed.

(** ** Configuration merging *)

Lemma spread_absent_l {T : Type} (s : Slot T) : spread Absent s = s.
Proof. destruct s; reflexivity. Qed.

(** *** What [Headers.set] and [mergeHeaders] store *)

Lemma set_each_app (l1 l2 : list (string * string)) (acc : gmap string string) :
  set_each (l1 ++ l2) acc
  = match set_each l1 acc with
    | Ok merged => set_each l2 merged
    | Throw f => Throw f
    end.
Proof.
  revert acc. induction l1 as [|entry l1 IH]; intros acc; simpl.
  - reflexivity.
  - destruct (headers_set acc entry); [apply IH | reflexivity].
Qed.

(** [mergeHeaders] sets the pairs of its arguments one after the other. *)
Lemma merge_each_set_each (headersList : list (option HeadersInit))
  (acc : gmap string string) :
  merge_each headersList acc = set_each (all_pairs headersList) acc.
Proof.
  revert acc. induction headersList as [|[init|] later IH]; intros acc.
  - reflexivity.
  - change (all_pairs (Some init :: later)) with (header_entries init ++ all_pairs later).
    rewrite set_each_app. simpl.
    destruct (set_each (header_entries init) acc); [apply IH | reflexivity].
  - apply IH.
Qed.

Lemma mergeHeaders_set_each (headersList : list (option HeadersInit)) :
  mergeHeaders headersList = set_each (all_pairs headersList) ∅.
Proof. apply merge_each_set_each. Qed.

(** A refused pair makes the whole loop throw. *)
Lemma set_each_refused (l : list (string * string)) (acc : gmap string string) :
  forallb accepted l = false -> set_each l acc = Throw invalid_header.
Proof.
  revert acc. induction l as [|entry l IH]; intros acc; simpl.
  - discriminate.
  - unfold headers_set. destruct (accepted entry); simpl.
    + apply IH.
    + reflexivity.
Qed.

Lemma set_each_accepted (l : list (string * string)) (acc : gmap string string) :
  forallb accepted l = true -> exists merged, set_each l acc = Ok merged.
Proof.
  revert acc. induction l as [|entry l IH]; intros acc; simpl.
  - now eexists.
  - unfold headers_set. destruct (accepted entry); simpl; [apply IH | discriminate].
Qed.

Lemma set_each_returns (l : list (string * string)) (acc merged : gmap string string) :
  set_each l acc = Ok merged -> forallb accepted l = true.
Proof.
  destruct (forallb accepted l) eqn:E; [reflexivity|].
  rewrite (set_each_refused l acc E). discriminate.
Qed.

(** After the loop a name holds what its last pair stored, and what it
    held before when no pair names it. *)
Lemma set_each_lookup (l : list (string * string)) (acc merged : gmap string string)
  (k : string) :
  set_each l acc = Ok merged ->
  merged !! k
  = match last_entry (List.map stored l) k with
    | Some v => Some v
    | None => acc !! k
    end.
Proof.
  revert acc. induction l as [|entry l IH]; intros acc; simpl.
  - now intros [= ->].
  - unfold headers_set. destruct (accepted entry); [|discriminate].
    intros H. rewrite (IH _ H).
    destruct (last_entry (List.map stored l) k); [reflexivity|].
    destruct (String.eqb (Js.lower (fst entry)) k) eqn:E.
    + apply String.eqb_eq in E. subst k. now rewrite lookup_insert_eq.
    + apply String.eqb_neq in E. now rewrite lookup_insert_ne.
Qed.

Lemma last_entry_app {V : Type} (l1 l2 : list (string * V)) (k : string) :
  last_entry (l1 ++ l2) k
  = match last_entry l2 k with
    | Some v => Some v
    | None => last_entry l1 k
    end.
Proof.
  induction l1 as [|[k0 v0] l1 IH]; simpl.
  - destruct (last_entry l2 k); reflexivity.
  - rewrite IH. destruct (last_entry l2 k); reflexivity.
Qed.

Lemma last_header_app (l1 l2 : list (string * string)) (name : string) :
  last_header (l1 ++ l2) name
  = match last_header l2 name with
    | Some v => Some v
    | None => last_header l1 name
    end.
Proof. unfold last_header. rewrite List.map_app. apply last_entry_app. Qed.

(** The headers of a merged list: name by name, the last pair wins. *)
Lemma mergeHeaders_lookup (headersList : list (option HeadersInit))
  (merged : gmap string string) (name : string) :
  mergeHeaders headersList = Ok merged ->
  headers_get name merged = last_header (all_pairs headersList) name.
Proof.
  rewrite mergeHeaders_set_each. intros H.
  unfold headers_get, last_header. rewrite (set_each_lookup _ _ _ _ H), lookup_empty.
  destruct (last_entry _ _); reflexivity.
Qed.

Lemma all_pairs_two (base override : Slot HeadersInit) :
  all_pairs [slot_get base; slot_get override]
  = header_pairs base ++ header_pairs override.
Proof.
  unfold all_pairs, header_pairs. simpl. now rewrite List.app_nil_r.
Qed.

(** *** What the object spread keeps *)

Lemma obj_get_set {V : Type} (l : list (string * V)) (k k' : string) (v : V) :
  obj_get (obj_set l k v) k' = if String.eqb k k' then Some v else obj_get l k'.
Proof.
  induction l as [|[k0 v0] l IH]; simpl.
  - reflexivity.
  - destruct (String.eqb k0 k) eqn:E0; simpl.
    + apply String.eqb_eq in E0. subst k0.
      destruct (String.eqb k k'); reflexivity.
    + rewrite IH. destruct (String.eqb k0 k') eqn:E1; [|reflexivity].
      apply String.eqb_eq in E1. subst k0.
      rewrite String.eqb_sym in E0. now rewrite E0.
Qed.

Lemma fold_obj_lookup {V : Type} (src target : list (string * V)) (k : string) :
  obj_get (fold_left (fun acc kv => obj_set acc (fst kv) (snd kv)) src target) k
  = match last_entry src k with
    | Some v => Some v
    | None => obj_get target k
    end.
Proof.
  revert target. induction src as [|[k0 v0] src IH]; intros target; simpl.
  - reflexivity.
  - rewrite (IH (obj_set target k0 v0)).
    destruct (last_entry src k); [reflexivity|].
    rewrite obj_get_set. destruct (String.eqb k0 k); reflexivity.
Qed.

(** Parameters are merged key by key, and the later object wins. *)
Lemma obj_assign_lookup {V : Type} (base override : Slot (list (string * V)))
  (k : string) :
  obj_get (obj_assign (obj_assign [] (slot_get base)) (slot_get override)) k
  = match last_entry (entries_of override) k with
    | Some v => Some v
    | None => last_entry (entries_of base) k
    end.
Proof.
  unfold entries_of, obj_assign.
  destruct (slot_get override) as [src|], (slot_get base) as [tgt|]; simpl;
    rewrite ?fold_obj_lookup; simpl;
    repeat match goal with |- context [last_entry ?l k] => destruct (last_entry l k) end;
    reflexivity.
Qed.

(** [mergeConfig] of two configurations returns exactly when the
    platform accepts the header pairs of both. *)
Lemma mergeConfig_accepted (base override : Config) :
  forallb accepted (header_pairs (headers base) ++ header_pairs (headers override)) = true ->
  exists merged, mergeConfig (Some base) (Some override) = Ok merged.
Proof.
  intros Hacc. unfold mergeConfig.
  rewrite mergeHeaders_set_each, all_pairs_two.
  destruct (set_each_accepted _ ∅ Hacc) as [h ->]. eauto.
Qed.

Lemma mergeConfig_refused (base override : Config) :
  forallb accepted (header_pairs (headers base) ++ header_pairs (headers override)) = false ->
  mergeConfig (Some base) (Some override) = Throw (ThrForeign invalid_header).
Proof.
  intros Hacc. unfold mergeConfig.
  now rewrite mergeHeaders_set_each, all_pairs_two, (set_each_refused _ ∅ Hacc).
Qed.

(** The properties of a merged configuration that the request path
    reads. *)
Lemma mergeConfig_fields (base override merged : Config) :
  mergeConfig (Some base) (Some override) = Ok merged ->
  method merged = spread (method base) (method override)
  /\ body merged = spread (body base) (body override)
  /\ retry merged
     = Val (retry_assign (retry_assign emptyRetry (slot_get (retry base)))
              (slot_get (retry override)))
  /\ transformRequest merged
     = spread (transformRequest base) (transformRequest override).
Proof.
  unfold mergeConfig. destruct (mergeHeaders _); [|discriminate].
  intros [= <-]. repeat split.
Qed.

(** A platform that refuses a header name refuses the extension: C6 as
    it stands promises a configuration for every override. *)
Lemma extend_refuses_invalid_header_name :
  extend (headersConfig [("Authorization", "Bearer token")])
    (Some (headersConfig [("X Custom", "value")]))
  = Throw (ThrForeign invalid_header).
Proof. vm_compute. reflexivity. Qed.

(** C6, amended.  When the platform's [Headers] accepts every header
    name and value of the instance and of the override, [extend],
    through [mergeConfig], produces a configuration in which the headers
    are merged name by name and the parameters key by key (the last pair
    for a name or key wins, so the override wins), the retry policy is
    merged property by property, and every other property comes from the
    override when the override has it and from the instance otherwise, so
    that no setting of the instance is lost.  When a name or value is
    refused, [extend] throws the platform's [TypeError].  Without an
    override the instance's configuration is kept as it is. *)
Theorem extend_merges_config (this_config override : Config) :
  (if forallb accepted
        (header_pairs (headers this_config) ++ header_pairs (headers override))
   then
     exists merged,
       extend this_config (Some override) = Ok merged
       /\ (exists h, headers merged = Val (HInitHeaders h)
             /\ forall name,
                  headers_get name h
                  = match last_header (header_pairs (headers override)) name with
                    | Some v => Some v
                    | None => last_header (header_pairs (headers this_config)) name
                    end)
       /\ (exists p, params merged = Val p
             /\ forall key,
                  obj_get p key
                  = match last_entry (entries_of (params override)) key with
                    | Some v => Some v
                    | None => last_entry (entries_of (params this_config)) key
                    end)
       /\ (exists r, retry merged = Val r
             /\ count r = spread (retry_field count (retry this_config))
                            (retry_field count (retry override))
             /\ delay r = spread (retry_field delay (retry this_config))
                            (retry_field delay (retry override))
             /\ backoff r = spread (retry_field backoff (retry this_config))
                              (retry_field backoff (retry override))
             /\ retryOn r = spread (retry_field retryOn (retry this_config))
                              (retry_field retryOn (retry override)))
       /\ (method merged = spread (method this_config) (method override)
           /\ body merged = spread (body this_config) (body override)
           /\ timeout merged = spread (timeout this_config) (timeout override)
           /\ baseURL merged = spread (baseURL this_config) (baseURL override)
           /\ responseType merged
              = spread (responseType this_config) (responseType override)
           /\ parseJson merged = spread (parseJson this_config) (parseJson override)
           /\ validateStatus merged
              = spread (validateStatus this_config) (validateStatus override)
           /\ transformResponse merged
              = spread (transformResponse this_config) (transformResponse override)
           /\ transformRequest merged
              = spread (transformRequest this_config) (transformRequest override)
           /\ onRequest merged = spread (onRequest this_config) (onRequest override)
           /\ onResponse merged = spread (onResponse this_config) (onResponse override)
           /\ onError merged = spread (onError this_config) (onError override)
           /\ signal merged = spread (signal this_config) (signal override))
       /\ (forall key,
             rest merged !! key
             = match rest override !! key with
               | Some v => Some v
               | None => rest this_config !! key
               end)
   else extend this_config (Some override) = Throw (ThrForeign invalid_header))
  /\ (forall T (base : Slot T), spread base Absent = base)
  /\ extend this_config None = Ok this_config.
Proof.
  split; [|split; reflexivity].
  unfold extend, mergeConfig.
  destruct (forallb accepted _) eqn:Hacc.
  - pose proof (mergeHeaders_set_each
                  [slot_get (headers this_config); slot_get (headers override)]) as Hm.
    rewrite all_pairs_two in Hm.
    destruct (set_each_accepted _ ∅ Hacc) as [h Hh]. rewrite Hh in Hm.
    rewrite Hm. eexists. split; [reflexivity|].
    repeat apply conj; try reflexivity.
    + eexists. split; [reflexivity|]. intros name.
      rewrite (mergeHeaders_lookup _ _ name Hm), all_pairs_two. apply last_header_app.
    + eexists. split; [reflexivity|]. intros key. apply obj_assign_lookup.
    + eexists. split; [reflexivity|]. unfold retry_field.
      destruct (retry this_config) as [| |rb], (retry override) as [| |ro]; simpl;
        rewrite ?spread_absent_l; repeat split; reflexivity.
    + intros key. simpl. rewrite lookup_union.
      destruct (rest override !! key), (rest this_config !! key); reflexivity.
  - rewrite mergeHeaders_set_each, all_pairs_two, (set_each_refused _ ∅ Hacc).
    reflexivity.
Qed.

(** The amended C6 on an instance with an authorization header and a
    timeout, extended by an override that sets a header in another case
    and a parameter. *)
Lemma extend_merges_config_witness :
  exists merged,
    extend (mkConfig
              (mkSettings Absent Absent (Val [("page", VNum 1)]) (Val 5000) Absent
                 (Val (HInitRecord [("Authorization", "Bearer token");
                                    ("Accept", "text/html")]))
                 Absent Absent Absent Absent Absent Absent Absent Absent ∅)
              Absent Absent)
      (Some (mkConfig
               (mkSettings Absent Absent (Val [("limit", VNum 10)]) Absent Absent
                  (Val (HInitArray [("accept", " application/json ")]))
                  Absent Absent Absent Absent Absent Absent Absent Absent ∅)
               Absent Absent))
    = Ok merged
    /\ (exists h, headers merged = Val (HInitHeaders h)
          /\ headers_get "Accept" h = Some "application/json"
          /\ headers_get "authorization" h = Some "Bearer token")
    /\ (exists p, params merged = Val p
          /\ obj_get p "page" = Some (VNum 1) /\ obj_get p "limit" = Some (VNum 10))
    /\ timeout merged = Val 5000.
Proof.
  destruct (proj1 (extend_merges_config
              (mkConfig
                 (mkSettings Absent Absent (Val [("page", VNum 1)]) (Val 5000) Absent
                    (Val (HInitRecord [("Authorization", "Bearer token");
                                       ("Accept", "text/html")]))
                    Absent Absent Absent Absent Absent Absent Absent Absent ∅)
                 Absent Absent)
              (mkConfig
                 (mkSettings Absent Absent (Val [("limit", VNum 10)]) Absent Absent
                    (Val (HInitArray [("accept", " application/json ")]))
                    Absent Absent Absent Absent Absent Absent Absent Absent ∅)
                 Absent Absent)))
    as (merged & Hm & (h & Hh & Hget) & (p & Hp & Hobj) & _ & Hother & _).
  exists merged. split; [exact Hm|]. split; [|split].
  - exists h. split; [exact Hh|]. split.
    + rewrite Hget. reflexivity.
    + rewrite Hget. reflexivity.
  - exists p. split; [exact Hp|]. split; rewrite Hobj; reflexivity.
  - destruct Hother as (_ & _ & Ht & _). exact Ht.
Defined.

(** ** Event logs of the monad *)

Section Logs.

Context {A B : Type}.

Lemma quiet_ret (a : A) : quiet (ret a).
Proof. reflexivity. Qed.

Lemma quiet_throw (t : Thrown) : quiet (@throw A t).
Proof. reflexivity. Qed.

Lemma quiet_lift (o : Outcome A) : quiet (lift o).
Proof. reflexivity. Qed.

Lemma quiet_lift_foreign (o : Try Foreign A) : quiet (lift_foreign o).
Proof. destruct o; reflexivity. Qed.

Lemma quiet_emit (e : Event) : is_schedule e = false -> quiet (emit e).
Proof. unfold quiet, schedule. simpl. now intros ->. Qed.

Lemma quiet_bind (m : M A) (k : A -> M B) :
  quiet m -> (forall a, quiet (k a)) -> quiet (bind m k).
Proof.
  unfold quiet, schedule. destruct m as [[a|e] t]; simpl; intros Hm Hk.
  - specialize (Hk a). destruct (k a) as [r t']. simpl in *.
    now rewrite List.filter_app, Hm, Hk.
  - exact Hm.
Qed.

Lemma quiet_try_catch (m : M A) (handler : Thrown -> M A) :
  quiet m -> (forall e, quiet (handler e)) -> quiet (try_catch m handler).
Proof.
  unfold quiet, schedule. destruct m as [[a|e] t]; simpl; intros Hm Hk.
  - exact Hm.
  - specialize (Hk e). destruct (handler e) as [r t']. simpl in *.
    now rewrite List.filter_app, Hm, Hk.
Qed.

Lemma quiet_run_hook (hook : Slot (A -> Outcome A)) (a : A) : quiet (run_hook hook a).
Proof. destruct hook; reflexivity. Qed.

End Logs.

Lemma quiet_clear_timer (timer : option Z) : quiet (clear_timer timer).
Proof. destruct timer; reflexivity. Qed.

Ltac quiet_step :=
  first
    [ apply quiet_ret | apply quiet_throw | apply quiet_lift
    | apply quiet_lift_foreign | apply quiet_run_hook | apply quiet_clear_timer
    | apply quiet_emit; reflexivity
    | apply quiet_bind; [|intros]
    | apply quiet_try_catch; [|intros]
    | match goal with
      | |- quiet (match ?x with _ => _ end) => destruct x
      | |- quiet (if ?x then _ else _) => destruct x
      end ].

(** One attempt logs neither an attempt marker nor a wait. *)
Lemma performRequest_quiet fetch this_config attempt url config :
  quiet (performRequest fetch this_config attempt url config).
Proof.
  unfold performRequest. repeat quiet_step.
Qed.

(** ** The retry loop *)

Section Loop.

Variable fetch : Transport.
Variable this_config : Config.
Variable url : string.
Variable mergedConfig : Config.

Local Abbreviation attempt_at i := (performRequest fetch this_config i url mergedConfig).
Local Abbreviation loop := (attempt_loop fetch this_config url mergedConfig).

(** A successful attempt ends the loop. *)
Lemma loop_success attempt later lastError response :
  fst (attempt_at attempt) = Ok response ->
  loop (attempt :: later) lastError
  = (Ok response, EvPerform attempt :: snd (attempt_at attempt)).
Proof.
  intros H. simpl. destruct (attempt_at attempt) as [o t].
  simpl in H. now subst o.
Qed.

(** A failure of the last attempt is thrown on. *)
Lemma loop_last attempt later lastError error :
  fst (attempt_at attempt) = Throw error ->
  Z.of_nat attempt = retry_count mergedConfig ->
  loop (attempt :: later) lastError
  = (Throw error, EvPerform attempt :: snd (attempt_at attempt)).
Proof.
  intros H Hlast. simpl. destruct (attempt_at attempt) as [o t].
  simpl in H. subst o. apply Z.eqb_eq in Hlast. now rewrite Hlast.
Qed.

(** A failure with a status outside the retryable set is thrown on. *)
Lemma loop_fail_fast attempt later lastError error st :
  fst (attempt_at attempt) = Throw error ->
  has_status error = Some st ->
  shouldRetry st (retry_codes mergedConfig) = false ->
  loop (attempt :: later) lastError
  = (Throw error, EvPerform attempt :: snd (attempt_at attempt)).
Proof.
  intros H Hst Hno. simpl. destruct (attempt_at attempt) as [o t].
  simpl in H. subst o. rewrite Hst, Hno. simpl.
  destruct (Z.of_nat attempt =? retry_count mergedConfig); reflexivity.
Qed.

(** A failure without a status, before the last attempt, is followed by
    the wait and the next attempt. *)
Lemma loop_retry attempt later lastError error :
  fst (attempt_at attempt) = Throw error ->
  Z.of_nat attempt <> retry_count mergedConfig ->
  has_status error = None ->
  loop (attempt :: later) lastError
  = (fst (loop later (Some error)),
     EvPerform attempt :: snd (attempt_at attempt)
       ++ EvSleep (retry_delay mergedConfig attempt) :: snd (loop later (Some error))).
Proof.
  intros H Hne Hst. simpl. destruct (attempt_at attempt) as [o t].
  simpl in H. subst o. apply Z.eqb_neq in Hne. rewrite Hne, Hst.
  destruct (loop later (Some error)); reflexivity.
Qed.

Lemma schedule_attempt attempt (rest : list Event) :
  schedule (EvPerform attempt :: snd (attempt_at attempt) ++ rest)
  = EvPerform attempt :: schedule rest.
Proof.
  unfold schedule. simpl. rewrite List.filter_app.
  pose proof (performRequest_quiet fetch this_config attempt url mergedConfig) as Hq.
  unfold quiet, schedule in Hq. now rewrite Hq.
Qed.

Lemma schedule_attempt_last attempt :
  schedule (EvPerform attempt :: snd (attempt_at attempt)) = [EvPerform attempt].
Proof.
  rewrite <- (app_nil_r (snd (attempt_at attempt))). apply schedule_attempt.
Qed.

End Loop.

Lemma schedule_sleep (ms : Z) (rest : list Event) :
  schedule (EvSleep ms :: rest) = EvSleep ms :: schedule rest.
Proof. reflexivity. Qed.

Lemma has_status_timeout (message : string) (ms : Z) :
  has_status (ThrFetchError (TimeoutError message ms)) = None.
Proof. reflexivity. Qed.

Lemma attempt_range_negative (retryCount : Z) :
  retryCount < 0 -> attempt_range retryCount = [].
Proof.
  intros H. unfold attempt_range.
  replace (Z.to_nat (retryCount + 1)) with 0%nat by lia. reflexivity.
Qed.

(** [executeRequest] merges the two configurations first: it runs the
    loop on what [mergeConfig] returns, and throws what [mergeConfig]
    throws before any attempt. *)
Lemma executeRequest_merged fetch this_config url config mergedConfig :
  mergeConfig (Some this_config) config = Ok mergedConfig ->
  executeRequest fetch this_config url config
  = attempt_loop fetch this_config url mergedConfig
      (attempt_range (retry_count mergedConfig)) None.
Proof.
  intros H. unfold executeRequest. rewrite H. cbn [lift bind].
  now destruct (attempt_loop _ _ _ _ _ _).
Qed.

Lemma executeRequest_unmerged fetch this_config url config thrown :
  mergeConfig (Some this_config) config = Throw thrown ->
  executeRequest fetch this_config url config = (Throw thrown, []).
Proof.
  intros H. unfold executeRequest. now rewrite H.
Qed.

(** C3. When [retry.count] of the merged configuration is 2 and every
    attempt fails with a timeout, [executeRequest] makes exactly the three
    attempts 0, 1 and 2, waits [baseDelay * backoff ^ 0] after attempt 0
    and [baseDelay * backoff ^ 1] after attempt 1, and throws the
    [TimeoutError] of attempt 2: timeouts are retried until the attempts
    are used up. *)
Theorem executeRequest_retries_timeouts
  (fetch : Transport) (this_config : Config) (url : string) (config : option Config)
  (mergedConfig : Config) :
  mergeConfig (Some this_config) config = Ok mergedConfig ->
  retry_count mergedConfig = 2 ->
  (forall attempt, (attempt <= 2)%nat ->
     exists message ms,
       fst (performRequest fetch this_config attempt url mergedConfig)
       = Throw (ThrFetchError (TimeoutError message ms))) ->
  schedule (snd (executeRequest fetch this_config url config))
  = [ EvPerform 0;
      EvSleep (base_delay mergedConfig * backoff_factor mergedConfig ^ 0);
      EvPerform 1;
      EvSleep (base_delay mergedConfig * backoff_factor mergedConfig ^ 1);
      EvPerform 2 ]
  /\ fst (executeRequest fetch this_config url config)
     = fst (performRequest fetch this_config 2 url mergedConfig)
  /\ exists message ms,
       fst (executeRequest fetch this_config url config)
       = Throw (ThrFetchError (TimeoutError message ms)).
Proof.
  intros Hmerge Hcount Hall.
  destruct (Hall 0%nat ltac:(lia)) as (m0 & ms0 & H0).
  destruct (Hall 1%nat ltac:(lia)) as (m1 & ms1 & H1).
  destruct (Hall 2%nat ltac:(lia)) as (m2 & ms2 & H2).
  rewrite (executeRequest_merged _ _ _ _ _ Hmerge), Hcount.
  change (attempt_range 2) with [0%nat; 1%nat; 2%nat].
  rewrite (loop_retry _ _ _ _ _ _ _ _ H0), (loop_retry _ _ _ _ _ _ _ _ H1),
    (loop_last _ _ _ _ _ _ _ _ H2);
    rewrite ?Hcount; try lia; try apply has_status_timeout.
  simpl fst. simpl snd. split; [|split].
  - rewrite schedule_attempt, schedule_sleep, schedule_attempt, schedule_sleep,
      schedule_attempt_last.
    reflexivity.
  - now rewrite H2.
  - eauto.
Qed.

Lemma executeRequest_retries_timeouts_witness :
  let fetch := constTransport 2000 200 VNull in
  let config := Some (retryConfig 100 2 50 2) in
  schedule (snd (executeRequest fetch emptyConfig "/users" config))
  = [EvPerform 0; EvSleep 50; EvPerform 1; EvSleep 100; EvPerform 2]
  /\ fst (executeRequest fetch emptyConfig "/users" config)
     = Throw (ThrFetchError (TimeoutError "Request timeout after 100ms" 100))
  /\ network_calls (snd (executeRequest fetch emptyConfig "/users" config)) = 3%nat.
Proof.
  intros fetch config.
  pose (mergedConfig := match mergeConfig (Some emptyConfig) config with
                        | Ok merged => merged
                        | Throw _ => emptyConfig
                        end).
  assert (Hall : forall attempt, (attempt <= 2)%nat ->
            exists message ms,
              fst (performRequest fetch emptyConfig attempt "/users" mergedConfig)
              = Throw (ThrFetchError (TimeoutError message ms))).
  { intros attempt _. eexists. eexists. reflexivity. }
  destruct (executeRequest_retries_timeouts fetch emptyConfig "/users" config
              mergedConfig eq_refl eq_refl Hall) as (Hs & Hf & _).
  split; [exact Hs | split; [exact Hf | reflexivity]].
Defined.

(** The branch of the loop that does not retry: when the first attempt
    throws a [FetchError] whose [status] is a number other than 0 and
    outside the retryable set, [executeRequest] throws it at once, after
    one attempt and no wait. *)
Lemma executeRequest_fails_fast
  (fetch : Transport) (this_config : Config) (url : string) (config : option Config)
  (mergedConfig : Config) (e : FetchError) (st : Z) :
  mergeConfig (Some this_config) config = Ok mergedConfig ->
  0 <= retry_count mergedConfig ->
  fst (performRequest fetch this_config 0 url mergedConfig) = Throw (ThrFetchError e) ->
  fe_status e = Some st ->
  st <> 0 ->
  shouldRetry st (retry_codes mergedConfig) = false ->
  fst (executeRequest fetch this_config url config) = Throw (ThrFetchError e)
  /\ schedule (snd (executeRequest fetch this_config url config)) = [EvPerform 0]
  /\ snd (executeRequest fetch this_config url config)
     = EvPerform 0 :: snd (performRequest fetch this_config 0 url mergedConfig).
Proof.
  intros Hmerge Hcount Hfail Hst Hnz Hno.
  assert (Hhas : has_status (ThrFetchError e) = Some st).
  { simpl. rewrite Hst. apply Z.eqb_neq in Hnz. now rewrite Hnz. }
  rewrite (executeRequest_merged _ _ _ _ _ Hmerge).
  assert (Hrange : exists later,
            attempt_range (retry_count mergedConfig) = 0%nat :: later).
  { unfold attempt_range.
    destruct (Z.to_nat (retry_count mergedConfig + 1)) eqn:E; [lia|].
    simpl. eauto. }
  destruct Hrange as [later ->].
  rewrite (loop_fail_fast _ _ _ _ _ _ _ _ _ Hfail Hhas Hno).
  simpl fst. simpl snd. repeat split. apply schedule_attempt_last.
Qed.

(** The branch is taken for a 404 response whose body is JSON, as the
    test-suite mocks it. *)
Example executeRequest_fails_fast_on_json_404 :
  let fetch := constTransport 5 404 (VObj [("error", VStr "User not found")]) in
  let config := Some (retryConfig 1000 3 50 2) in
  fst (executeRequest fetch emptyConfig "/users/999" config)
  = Throw (ThrFetchError
             (FetchErrorClass "Request failed with status 404"
                (Some (mockResponse 404 (VObj [("error", VStr "User not found")])))
                (Some 404) (Some "status text")
                (Some (VObj [("error", VStr "User not found")]))))
  /\ schedule (snd (executeRequest fetch emptyConfig "/users/999" config))
     = [EvPerform 0]
  /\ network_calls (snd (executeRequest fetch emptyConfig "/users/999" config)) = 1%nat.
Proof.
  intros fetch config.
  pose (mergedConfig := match mergeConfig (Some emptyConfig) config with
                        | Ok merged => merged
                        | Throw _ => emptyConfig
                        end).
  assert (H0 : 0 <= retry_count mergedConfig) by (vm_compute; discriminate).
  assert (Hnz : 404 <> 0) by lia.
  destruct (executeRequest_fails_fast fetch emptyConfig "/users/999" config
              mergedConfig _ 404 eq_refl H0 eq_refl eq_refl Hnz eq_refl) as (Hf & Hs & _).
  split; [exact Hf | split; [exact Hs | reflexivity]].
Qed.

(** C4 fails on the code.  A 404 response whose body is not JSON, with
    three retries allowed: 404 is outside the retryable set, yet the
    attempt is made four times, with the waits 50, 100 and 200 between
    them.  In [performRequest] [json()] fails on the body and uses it up,
    the fallback [text()] then fails as well, and its [TypeError] leaves
    the [try] block before the [FetchError] with the status is built; the
    [catch] block wraps it in a [FetchError] without status, which the
    loop of [executeRequest] takes for a failure without a response and
    retries.  The caller gets that error, with no status to tell that the
    server answered 404. *)
Theorem executeRequest_retries_404_with_unreadable_body :
  let fetch : Transport := fun _ _ _ => mkNetReply 5 (Ok (unparsableResponse 404)) in
  let config := Some (retryConfig 1000 3 50 2) in
  shouldRetry 404 (retry_codes (retryConfig 1000 3 50 2)) = false
  /\ schedule (snd (executeRequest fetch emptyConfig "/users/999" config))
     = [EvPerform 0; EvSleep 50; EvPerform 1; EvSleep 100; EvPerform 2;
        EvSleep 200; EvPerform 3]
  /\ network_calls (snd (executeRequest fetch emptyConfig "/users/999" config)) = 4%nat
  /\ fst (executeRequest fetch emptyConfig "/users/999" config)
     = Throw (ThrFetchError
                (FetchErrorClass "Body has already been read" None None None None))
  /\ fst (request fetch emptyConfig "/users/999" config)
     = Ok (mkResult false None
             (Some (FetchErrorClass "Body has already been read" None None None None))).
Proof.
  repeat split.
Qed.

(** A response with status 0 is retried as well: [error.status] is
    falsy. *)
Example failure_with_status_zero :
  schedule (snd (executeRequest (constTransport 5 0 VNull) emptyConfig "/users/999"
                   (Some (retryConfig 1000 3 50 2))))
  = [EvPerform 0; EvSleep 50; EvPerform 1; EvSleep 100; EvPerform 2;
     EvSleep 200; EvPerform 3].
Proof.
  reflexivity.
Qed.

(** ** The public operations *)

(** [request] as a case analysis on [executeRequest]. *)
Lemma request_of_success fetch this_config url config response :
  fst (executeRequest fetch this_config url config) = Ok response ->
  fst (request fetch this_config url config) = Ok (mkResult true (Some response) None).
Proof.
  intros H. unfold request.
  destruct (executeRequest fetch this_config url config) as [o t].
  simpl in H. subst o. reflexivity.
Qed.

Lemma request_of_failure fetch this_config url config thrown :
  fst (executeRequest fetch this_config url config) = Throw thrown ->
  fst (request fetch this_config url config)
  = match onError this_config with
    | Val h =>
        match h (createError thrown) with
        | Ok _ => Ok (mkResult false None (Some (createError thrown)))
        | Throw t => Throw t
        end
    | _ => Ok (mkResult false None (Some (createError thrown)))
    end.
Proof.
  intros H. unfold request.
  destruct (executeRequest fetch this_config url config) as [o t].
  simpl in H. subst o.
  assert (Hc : match thrown with ThrFetchError e0 => e0 | _ => createError thrown end
               = createError thrown) by (destruct thrown; reflexivity).
  rewrite Hc.
  destruct (onError this_config) as [| |h]; try reflexivity.
  simpl. destruct (h (createError thrown)); reflexivity.
Qed.

(** C1. When the error interceptor is absent or does not throw, [request]
    does not throw: it returns a [Result], and whatever [executeRequest]
    threw (a network error, a bad status, a parse failure, a timeout or
    any other value) comes back as [success: false] with a [FetchError]
    in the error slot and [null] data. *)
Theorem request_never_throws
  (fetch : Transport) (this_config : Config) (url : string) (config : option Config) :
  onError_returns this_config ->
  exists r,
    fst (request fetch this_config url config) = Ok r
    /\ forall thrown,
         fst (executeRequest fetch this_config url config) = Throw thrown ->
         success r = false /\ data r = None /\ error r = Some (createError thrown).
Proof.
  intros Hhook.
  destruct (fst (executeRequest fetch this_config url config)) as [response|thrown] eqn:E.
  - eexists. split; [apply (request_of_success _ _ _ _ _ E)|]. discriminate.
  - rewrite (request_of_failure _ _ _ _ _ E).
    destruct (onError this_config) as [| |h] eqn:Eh.
    + eexists. split; [reflexivity|]. intros ? [= <-]. repeat split.
    + eexists. split; [reflexivity|]. intros ? [= <-]. repeat split.
    + destruct (Hhook h (createError thrown) Eh) as [u ->].
      eexists. split; [reflexivity|]. intros ? [= <-]. repeat split.
Qed.

Lemma request_never_throws_witness :
  onError_returns observedConfig
  /\ exists r,
       fst (request failingTransport observedConfig "https://api.example.com/users" None)
       = Ok r
       /\ success r = false
       /\ data r = None
       /\ error r = Some (FetchErrorClass "Network error" None None None None).
Proof.
  assert (Hret : onError_returns observedConfig).
  { intros h e [= <-]. eexists. reflexivity. }
  split; [exact Hret|].
  destruct (request_never_throws failingTransport observedConfig
              "https://api.example.com/users" None Hret) as (r & Hr & Hfail).
  exists r. split; [exact Hr|].
  exact (Hfail (ThrFetchError (FetchErrorClass "Network error" None None None None))
           eq_refl).
Defined.

Lemma request_invariant fetch this_config url config r :
  fst (request fetch this_config url config) = Ok r -> result_invariant r.
Proof.
  destruct (fst (executeRequest fetch this_config url config)) as [response|thrown] eqn:E.
  - rewrite (request_of_success _ _ _ _ _ E). intros [= <-].
    left. repeat split. discriminate.
  - rewrite (request_of_failure _ _ _ _ _ E). intros H.
    assert (Hr : r = mkResult false None (Some (createError thrown))).
    { destruct (onError this_config) as [| |h];
        [ | | destruct (h (createError thrown)) ]; congruence. }
    subst r. right. repeat split. discriminate.
Qed.

(** C2. Every [Result] that [request] or one of the wrappers [get],
    [post], [put], [patch], [delete] returns is either a success with
    data and a [null] error, or a failure with [null] data and an error:
    never both, never neither. *)
Theorem request_result_invariant
  (fetch : Transport) (this_config : Config) (url : string) (body : JsVal)
  (config : option Config) (r : Result) :
  fst (request fetch this_config url config) = Ok r
  \/ fst (get fetch this_config url config) = Ok r
  \/ fst (post fetch this_config url body config) = Ok r
  \/ fst (put fetch this_config url body config) = Ok r
  \/ fst (patch fetch this_config url body config) = Ok r
  \/ fst (delete fetch this_config url config) = Ok r ->
  result_invariant r.
Proof.
  unfold get, post, put, patch, delete.
  intros [H | [H | [H | [H | [H | H]]]]]; exact (request_invariant _ _ _ _ _ H).
Qed.

Lemma request_result_invariant_witness :
  result_invariant
    (mkResult false None
       (Some (FetchErrorClass "Request failed with status 404"
                (Some (mockResponse 404 VNull)) (Some 404) (Some "status text")
                (Some VNull)))).
Proof.
  apply (request_result_invariant (constTransport 5 404 VNull) emptyConfig
           "https://api.example.com/users/999" VUndefined None).
  right. left. reflexivity.
Defined.

(** C10. When [retry.count] of the merged configuration is negative, the loop of
    [executeRequest] has no iteration: no attempt and no transport call
    is made, and the accumulator [lastError], still [undefined], is
    thrown; so [request] (its error interceptor absent or returning)
    gives a failure whose error is a [FetchError] with the message
    [String(undefined)]. *)
Theorem negative_retry_count_makes_no_attempt
  (fetch : Transport) (this_config : Config) (url : string) (config : option Config)
  (mergedConfig : Config) :
  mergeConfig (Some this_config) config = Ok mergedConfig ->
  retry_count mergedConfig < 0 ->
  executeRequest fetch this_config url config
  = (Throw (ThrForeign (Raised VUndefined)), [])
  /\ network_calls (snd (request fetch this_config url config)) = 0%nat
  /\ (onError_returns this_config ->
      fst (request fetch this_config url config)
      = Ok (mkResult false None
              (Some (FetchErrorClass "undefined" None None None None)))).
Proof.
  intros Hmerge Hneg.
  assert (Hexec : executeRequest fetch this_config url config
                  = (Throw (ThrForeign (Raised VUndefined)), [])).
  { rewrite (executeRequest_merged _ _ _ _ _ Hmerge).
    now rewrite (attempt_range_negative _ Hneg). }
  split; [exact Hexec | split].
  - unfold request. rewrite Hexec.
    destruct (onError this_config) as [| |h]; try reflexivity.
    simpl. destruct (h _); reflexivity.
  - intros Hhook.
    rewrite (request_of_failure _ _ _ _ (ThrForeign (Raised VUndefined)))
      by now rewrite Hexec.
    destruct (onError this_config) as [| |h] eqn:Eh; try reflexivity.
    now destruct (Hhook h (createError (ThrForeign (Raised VUndefined))) Eh) as [u ->].
Qed.

Lemma negative_retry_count_makes_no_attempt_witness :
  let fetch := constTransport 5 200 VNull in
  let config := Some (retryConfig 100 (-1) 50 2) in
  executeRequest fetch emptyConfig "/users" config
  = (Throw (ThrForeign (Raised VUndefined)), [])
  /\ fst (request fetch emptyConfig "/users" config)
     = Ok (mkResult false None
             (Some (FetchErrorClass "undefined" None None None None))).
Proof.
  intros fetch config.
  pose (mergedConfig := match mergeConfig (Some emptyConfig) config with
                        | Ok merged => merged
                        | Throw _ => emptyConfig
                        end).
  assert (Hneg : retry_count mergedConfig < 0) by reflexivity.
  assert (Hret : onError_returns emptyConfig) by (intros h e [=]).
  destruct (negative_retry_count_makes_no_attempt fetch emptyConfig "/users" config
              mergedConfig eq_refl Hneg) as (Hexec & _ & Hreq).
  split; [exact Hexec | exact (Hreq Hret)].
Defined.

(** The failure paths of [request], each on a sample environment: a
    rejected transport call, a bad status, a body that does not parse, a
    timeout, and a value thrown by a request interceptor. *)
Example request_failure_paths :
  let url := "https://api.example.com/users" in
  let failure (m : M Result) :=
    match fst m with
    | Ok r => if success r then None else option_map fe_message (error r)
    | Throw _ => None
    end in
  failure (request failingTransport emptyConfig url None) = Some "Network error"
  /\ failure (request (constTransport 5 500 VNull) emptyConfig url None)
     = Some "Request failed with status 500"
  /\ failure (request (fun _ _ _ => mkNetReply 5 (Ok (unparsableResponse 200)))
                emptyConfig url None)
     = Some "Failed to parse response as json"
  /\ failure (request (constTransport 2000 200 VNull) emptyConfig url
                (Some (retryConfig 100 0 50 1)))
     = Some "Request timeout after 100ms"
  /\ failure (request (constTransport 5 200 VNull) throwingHookConfig url None)
     = Some "interceptor failed".
Proof.
  repeat split.
Qed.

(** ** The polyfill's life cycle *)

(** What holds of the install/restore utilities in every state: the
    wrapper is installed, a captured original is never replaced, an
    install is reported whenever a global [fetch] existed or an original
    was captured before, and [restoreFetch] puts the original back,
    forgets it, and returns whether there was one. *)
Lemma polyfill_lifecycle (config : option Config) (g : Polyfill.Globals) :
  Polyfill.installed (snd (Polyfill.polyfillFetch config g))
  /\ fst (Polyfill.polyfillFetch config g) = true
  /\ (forall f, Polyfill.originalFetch g = Some f ->
        Polyfill.originalFetch (snd (Polyfill.polyfillFetch config g)) = Some f)
  /\ (Polyfill.hasFetch g = true \/ Polyfill.isPolyfilled g = true ->
      Polyfill.isPolyfilled (snd (Polyfill.polyfillFetch config g)) = true)
  /\ fst (Polyfill.restoreFetch g) = Polyfill.isPolyfilled g
  /\ Polyfill.isPolyfilled (snd (Polyfill.restoreFetch g)) = false
  /\ (forall f, Polyfill.originalFetch g = Some f ->
        Polyfill.globalThis_fetch (snd (Polyfill.restoreFetch g)) = Polyfill.Callable f).
Proof.
  destruct g as [binding original].
  unfold Polyfill.polyfillFetch, Polyfill.restoreFetch, Polyfill.isPolyfilled,
    Polyfill.hasFetch, Polyfill.installed. simpl.
  repeat split.
  - eexists. reflexivity.
  - intros f ->. reflexivity.
  - intros [H | H]; destruct original, binding; try reflexivity; discriminate H.
  - destruct original; reflexivity.
  - destruct original; reflexivity.
  - intros f ->. reflexivity.
Qed.

(** * Further properties *)

(** ** More on URL building *)

Lemma string_app_assoc (a b c : string) : (a +:+ b) +:+ c = a +:+ b +:+ c.
Proof.
  induction a as [|x a IH]; [reflexivity|].
  change (String x ((a +:+ b) +:+ c) = String x (a +:+ b +:+ c)). now rewrite IH.
Qed.

Lemma includes_char_app (c : ascii) (a b : string) :
  Js.includes_char c (a +:+ b) = Js.includes_char c a || Js.includes_char c b.
Proof.
  induction a as [|x a IH]; simpl; [reflexivity|].
  destruct (Ascii.eqb c x); [reflexivity | exact IH].
Qed.

Lemma appended_params_app (p q : list (string * JsVal)) :
  appended_params (p ++ q) = appended_params p ++ appended_params q.
Proof.
  induction p as [|[k v] p IH]; simpl; [reflexivity|].
  destruct (is_nullish v); simpl; now rewrite IH.
Qed.

Lemma urlencoded_app (l1 l2 : list (string * string)) :
  l1 <> [] -> l2 <> [] ->
  Js.urlencoded (l1 ++ l2) = Js.urlencoded l1 +:+ "&" +:+ Js.urlencoded l2.
Proof.
  intros H1 H2. induction l1 as [|[k v] l1 IH]; [congruence|].
  destruct l1 as [|kv l1].
  - simpl. destruct l2; [congruence | reflexivity].
  - change (Js.urlencoded (((k, v) :: kv :: l1) ++ l2))
      with ((Js.form_encode k +:+ "=" +:+ Js.form_encode v) +:+ "&"
              +:+ Js.urlencoded ((kv :: l1) ++ l2)).
    rewrite IH by discriminate.
    change (Js.urlencoded ((k, v) :: kv :: l1))
      with ((Js.form_encode k +:+ "=" +:+ Js.form_encode v) +:+ "&"
              +:+ Js.urlencoded (kv :: l1)).
    now rewrite !string_app_assoc.
Qed.

(** [buildURL] in terms of the parameters it appends. *)
Lemma buildURL_appended (url : string) (params : list (string * JsVal)) :
  buildURL url (Some params)
  = match appended_params params with
    | [] => url
    | kept =>
        url +:+ (if Js.includes_char "?"%char url then "&" else "?")
          +:+ Js.urlencoded kept
    end.
Proof.
  unfold buildURL.
  destruct (String.eqb (Js.urlencoded (appended_params params)) EmptyString) eqn:E.
  - apply urlencoded_empty in E. now rewrite E.
  - destruct (appended_params params); [discriminate E | reflexivity].
Qed.

Lemma buildURL_app (url : string) (p q : list (string * JsVal)) :
  buildURL (buildURL url (Some p)) (Some q) = buildURL url (Some (p ++ q)).
Proof.
  rewrite (buildURL_appended url p), (buildURL_appended url (p ++ q)),
    appended_params_app.
  destruct (appended_params p) as [|kp lp] eqn:Ep.
  - simpl. apply buildURL_appended.
  - rewrite buildURL_appended.
    destruct (appended_params q) as [|kq lq] eqn:Eq.
    + now rewrite app_nil_r.
    + assert (Hq : Js.includes_char "?"%char
                     (url +:+ (if Js.includes_char "?"%char url then "&" else "?")
                        +:+ Js.urlencoded (kp :: lp)) = true).
      { rewrite !includes_char_app.
        destruct (Js.includes_char "?"%char url); reflexivity. }
      rewrite Hq.
      cbn [app].
      change (Js.urlencoded (kp :: lp ++ kq :: lq))
        with (Js.urlencoded ((kp :: lp) ++ (kq :: lq))).
      rewrite (urlencoded_app (kp :: lp) (kq :: lq)) by discriminate.
      now rewrite !string_app_assoc.
Qed.

Lemma obj_set_fresh {V : Type} (target : list (string * V)) (key : string) (value : V) :
  ~ List.In key (List.map fst target) ->
  obj_set target key value = target ++ [(key, value)].
Proof.
  induction target as [|[k v] target IH]; simpl; intros Hfresh.
  - reflexivity.
  - destruct (String.eqb k key) eqn:E.
    + apply String.eqb_eq in E. tauto.
    + rewrite IH by tauto. reflexivity.
Qed.

(** Spreading an object over one that shares no key with it appends its
    entries. *)
Lemma obj_assign_disjoint {V : Type} (p q : list (string * V)) :
  List.NoDup (List.map fst (p ++ q)) -> obj_assign p (Some q) = p ++ q.
Proof.
  unfold obj_assign. revert p. induction q as [|[k v] q IH]; intros p Hnd; simpl.
  - now rewrite List.app_nil_r.
  - assert (Hfresh : ~ List.In k (List.map fst p)).
    { rewrite List.map_app in Hnd. simpl in Hnd.
      apply List.NoDup_remove_2 in Hnd. rewrite List.in_app_iff in Hnd. tauto. }
    rewrite (obj_set_fresh p k v Hfresh), IH.
    + now rewrite <- List.app_assoc.
    + now rewrite <- List.app_assoc.
Qed.

(** X1. For two parameter objects that share no key, adding the
    parameters of the first and then, to the URL obtained, those of the
    second gives the same URL as adding those of [{ ...p, ...q }] at
    once: the second call sees the [?] the first one wrote and goes on
    with [&].  The keys are not made of digits only, so that the object
    lists them in the order they were written. *)
Theorem buildURL_twice (url : string) (p q : list (string * JsVal)) :
  List.NoDup (List.map fst (p ++ q)) ->
  List.Forall (fun key => digits_only key = false) (List.map fst (p ++ q)) ->
  buildURL (buildURL url (Some p)) (Some q)
  = buildURL url (Some (obj_assign p (Some q))).
Proof.
  intros Hnd _. rewrite (obj_assign_disjoint p q Hnd). apply buildURL_app.
Qed.

Lemma buildURL_twice_witness :
  buildURL (buildURL "/users" (Some [("page", VNum 1)])) (Some [("limit", VNum 10)])
  = "/users?page=1&limit=10"
  /\ buildURL "/users" (Some (obj_assign [("page", VNum 1)] (Some [("limit", VNum 10)])))
     = "/users?page=1&limit=10".
Proof.
  assert (Hnd : List.NoDup (List.map fst [("page", VNum 1); ("limit", VNum 10)])).
  { simpl. constructor.
    - simpl. intros [H|[]]. discriminate H.
    - constructor; [intros [] | constructor]. }
  assert (Hkeys : List.Forall (fun key => digits_only key = false)
                    (List.map fst [("page", VNum 1); ("limit", VNum 10)])).
  { repeat constructor. }
  pose proof (buildURL_twice "/users" [("page", VNum 1)] [("limit", VNum 10)] Hnd Hkeys)
    as H.
  split; [reflexivity|]. rewrite <- H. reflexivity.
Defined.

Lemma string_forall_app (p : ascii -> bool) (a b : string) :
  string_forall p (a +:+ b) = string_forall p a && string_forall p b.
Proof.
  induction a as [|x a IH]; simpl; [reflexivity|].
  now rewrite IH, andb_assoc.
Qed.

Lemma form_encode_byte_query_chars (c : ascii) :
  string_forall query_char (Js.form_encode_byte c) = true.
Proof.
  destruct c as [[] [] [] [] [] [] [] []]; reflexivity.
Qed.

Lemma form_encode_query_chars (s : string) :
  string_forall query_char (Js.form_encode s) = true.
Proof.
  induction s as [|c s IH]; [reflexivity|].
  simpl. now rewrite string_forall_app, form_encode_byte_query_chars, IH.
Qed.

Lemma urlencoded_query_chars (pairs : list (string * string)) :
  string_forall query_char (Js.urlencoded pairs) = true.
Proof.
  induction pairs as [|[k v] rest IH]; [reflexivity|].
  assert (H1 : string_forall query_char
                 (Js.form_encode k +:+ "=" +:+ Js.form_encode v) = true).
  { now rewrite !string_forall_app, !form_encode_query_chars. }
  simpl. destruct rest as [|kv rest]; [exact H1|].
  rewrite string_forall_app, H1. rewrite string_forall_app. simpl in IH |- *.
  exact IH.
Qed.

(** X2. Whatever the keys and values are, [buildURL] returns the URL
    followed by nothing, or by one separator and a query made only of
    ASCII letters, digits and [* - . _ + % = &]: a key or value cannot
    bring in a space, a [#], a [?], a [/] or a raw non-ASCII byte. *)
Theorem buildURL_appends_only_query_chars (url : string)
  (params : option (list (string * JsVal))) :
  buildURL url params = url
  \/ exists query,
       buildURL url params
       = url +:+ (if Js.includes_char "?"%char url then "&" else "?") +:+ query
       /\ query <> EmptyString
       /\ string_forall query_char query = true.
Proof.
  destruct params as [params|]; [|left; reflexivity].
  rewrite buildURL_appended.
  destruct (appended_params params) as [|kv kept] eqn:E; [left; reflexivity|].
  right. exists (Js.urlencoded (kv :: kept)). split; [reflexivity|]. split.
  - intros H. assert (Hn : kv :: kept = []); [|discriminate Hn].
    apply urlencoded_empty. now rewrite H.
  - apply urlencoded_query_chars.
Qed.

Lemma strip_trailing_slash_added (b : string) : strip_trailing_slash (b +:+ "/") = b.
Proof.
  induction b as [|c b IH]; [reflexivity|].
  change (strip_trailing_slash (String c (b +:+ "/")) = String c b).
  simpl. destruct (b +:+ "/") eqn:E.
  - destruct b; discriminate E.
  - now rewrite IH.
Qed.

Lemma strip_trailing_slash_other (b : string) (c : ascii) :
  c <> "/"%char ->
  strip_trailing_slash (b +:+ String c EmptyString) = b +:+ String c EmptyString.
Proof.
  intros Hc. induction b as [|d b IH].
  - simpl. apply Ascii.eqb_neq in Hc. now rewrite Hc.
  - change (strip_trailing_slash (String d (b +:+ String c EmptyString))
            = String d (b +:+ String c EmptyString)).
    simpl. destruct (b +:+ String c EmptyString) eqn:E.
    + destruct b; discriminate E.
    + now rewrite IH.
Qed.

(** X3. Slashes at the joint do not matter: a base URL that does not end
    in a slash, given as it is or with one slash added, joined with a
    path with or without one leading slash, gives the base, one slash,
    and the path.  Without a base URL (unset, or empty) the path is the
    URL. *)
Theorem resolveURL_joint (b0 : string) (c : ascii) (path : string) :
  c <> "/"%char ->
  (forall rest, path <> String "/"%char rest) ->
  let b := b0 +:+ String c EmptyString in
  resolveURL (Val b) path = b +:+ "/" +:+ path
  /\ resolveURL (Val b) (String "/"%char path) = b +:+ "/" +:+ path
  /\ resolveURL (Val (b +:+ "/")) path = b +:+ "/" +:+ path
  /\ resolveURL (Val (b +:+ "/")) (String "/"%char path) = b +:+ "/" +:+ path
  /\ resolveURL Absent path = path
  /\ resolveURL (Val EmptyString) path = path.
Proof.
  intros Hc Hpath b.
  assert (Hlead : strip_leading_slash path = path).
  { destruct path as [|d rest]; [reflexivity|]. simpl.
    destruct (Ascii.eqb d "/"%char) eqn:Ed; [|reflexivity].
    apply Ascii.eqb_eq in Ed. subst d. now destruct (Hpath rest). }
  assert (Hne : String.eqb (b +:+ "/") EmptyString = false)
    by (subst b; destruct b0; reflexivity).
  assert (Hb : String.eqb b EmptyString = false)
    by (subst b; destruct b0; reflexivity).
  unfold resolveURL. simpl slot_or. rewrite Hne, Hb, strip_trailing_slash_added.
  subst b. rewrite (strip_trailing_slash_other b0 c Hc), Hlead.
  repeat split.
Qed.

Lemma resolveURL_joint_witness :
  resolveURL (Val "https://api.example.com") "users" = "https://api.example.com/users"
  /\ resolveURL (Val "https://api.example.com") "/users" = "https://api.example.com/users"
  /\ resolveURL (Val "https://api.example.com/") "users" = "https://api.example.com/users"
  /\ resolveURL (Val "https://api.example.com/") "/users"
     = "https://api.example.com/users".
Proof.
  destruct (resolveURL_joint "https://api.example.co" "m"%char "users"
              ltac:(discriminate) ltac:(discriminate)) as (H1 & H2 & H3 & H4 & _).
  repeat split; assumption.
Defined.

(** ** One attempt, step by step *)

Section Attempt.

Variable fetch : Transport.
Variable this_config : Config.

(** The part of [performRequest] from the transport call on. *)
Local Abbreviation guarded attempt url finalConfig :=
  (try_catch
     (perform_try fetch this_config attempt url finalConfig
        (slot_get (timeout finalConfig)))
     (perform_catch finalConfig (slot_get (timeout finalConfig)))).

(** [performRequest] is the preparation of the configuration, then the
    timer, then the guarded transport call. *)
Lemma performRequest_prepared attempt url config :
  performRequest fetch this_config attempt url config
  = match prepared this_config config with
    | Throw t => (Throw t, [])
    | Ok finalConfig =>
        (fst (guarded attempt (requestURL config url) finalConfig),
         timer_log (slot_get (timeout finalConfig))
           ++ snd (guarded attempt (requestURL config url) finalConfig))
    end.
Proof.
  unfold performRequest, prepared, requestURL, resolveURL, assembledHeaders,
    derived_content_type, run_hook.
  destruct (mergeHeaders _) as [assembled|f]; cbn [lift_foreign bind app fst snd];
    [|reflexivity].
  destruct (onRequest this_config) as [| |h1]; cbn [lift ret bind app fst snd];
    try (destruct (h1 _) as [c1|t1]; cbn [lift ret bind app fst snd]; [|reflexivity]);
    (destruct (transformRequest config) as [| |h2]; cbn [lift ret bind app fst snd];
     try (destruct (h2 _) as [c2|t2]; cbn [lift ret bind app fst snd]; [|reflexivity]));
    match goal with
    | |- context [try_catch ?m ?h] =>
        destruct (try_catch m h) as [r t];
        match goal with
        | |- context [slot_get (timeout ?c)] => destruct (slot_get (timeout c))
        end; reflexivity
    end.
Qed.

(** X4. When the transport takes longer than the timeout of the final
    configuration, the attempt ends in a [TimeoutError] that carries the
    timeout and names it in its message, whatever the transport would
    have settled to; the timer is set before the call and cleared after
    it. *)
Theorem performRequest_times_out attempt url config finalConfig ms :
  prepared this_config config = Ok finalConfig ->
  timeout finalConfig = Val ms ->
  ms < latency (fetch attempt (requestURL config url) (fetch_init finalConfig)) ->
  performRequest fetch this_config attempt url config
  = (Throw (ThrFetchError
              (TimeoutError ("Request timeout after " +:+ Js.num_to_string ms +:+ "ms")
                 ms)),
     [ EvSetTimeout ms; EvFetch (requestURL config url) (fetch_init finalConfig);
       EvClearTimeout ]).
Proof.
  intros Hprep Htimeout Hslow.
  rewrite performRequest_prepared, Hprep.
  unfold try_catch, perform_try, perform_catch, timer_fires. rewrite Htimeout.
  apply Z.ltb_lt in Hslow. cbn [slot_get emit bind]. rewrite Hslow.
  reflexivity.
Qed.

Lemma try_catch_fst {A : Type} (m : M A) (handler : Thrown -> M A) :
  fst (try_catch m handler)
  = match fst m with
    | Ok a => Ok a
    | Throw e => fst (handler e)
    end.
Proof.
  destruct m as [[a|e] t]; [reflexivity|]. simpl. now destruct (handler e).
Qed.

Lemma bind_fst {A B : Type} (m : M A) (k : A -> M B) :
  fst (bind m k)
  = match fst m with
    | Ok a => fst (k a)
    | Throw e => Throw e
    end.
Proof.
  destruct m as [[a|e] t]; [|reflexivity]. simpl. now destruct (k a).
Qed.

(** The [catch] block of [performRequest] throws, and throws a
    [FetchError]. *)
Lemma perform_catch_throws finalConfig timer error :
  exists e, fst (perform_catch finalConfig timer error) = Throw (ThrFetchError e).
Proof.
  unfold perform_catch. rewrite bind_fst.
  destruct timer; simpl; destruct error as [e|[name message|v]]; simpl; eauto.
  all: destruct (String.eqb name "AbortError"); simpl; eauto.
Qed.

Lemma prepared_returns (config : Config) assembled :
  assembledHeaders config = Ok assembled ->
  hook_returns (onRequest this_config) ->
  hook_returns (transformRequest config) ->
  exists finalConfig, prepared this_config config = Ok finalConfig.
Proof.
  intros Hh H1 H2. unfold prepared, hook_returns in *. rewrite Hh.
  destruct (onRequest this_config) as [| |h1].
  3: match goal with
     | |- context [h1 ?x] => destruct (H1 h1 x eq_refl) as [c1 ->]
     end.
  all: destruct (transformRequest config) as [| |h2]; eauto.
Qed.

(** Headers that the platform refuses end the attempt before the
    request hooks run, and the [TypeError] leaves [performRequest] as it
    is: the assembly stands before the [try] block. *)
Lemma performRequest_refused_headers attempt url (config : Config) f :
  assembledHeaders config = Throw f ->
  performRequest fetch this_config attempt url config = (Throw (ThrForeign f), []).
Proof.
  intros H. rewrite performRequest_prepared. unfold prepared. now rewrite H.
Qed.

(** X5. When the platform accepts the assembled headers and the request
    hooks are absent or return, whatever goes wrong in an attempt (the
    transport, the validation, the body readers, the response hooks) is
    thrown as a [FetchError]: no other value leaves [performRequest]. *)
Theorem performRequest_throws_FetchError attempt url (config : Config) assembled thrown :
  assembledHeaders config = Ok assembled ->
  hook_returns (onRequest this_config) ->
  hook_returns (transformRequest config) ->
  fst (performRequest fetch this_config attempt url config) = Throw thrown ->
  exists e, thrown = ThrFetchError e.
Proof.
  intros Hh H1 H2.
  destruct (prepared_returns config assembled Hh H1 H2) as [finalConfig Hprep].
  rewrite performRequest_prepared, Hprep. cbn [fst]. rewrite try_catch_fst.
  destruct (fst (perform_try _ _ _ _ _ _)) as [a|e0]; [discriminate|].
  destruct (perform_catch_throws finalConfig (slot_get (timeout finalConfig)) e0)
    as [e ->].
  intros [= <-]. eauto.
Qed.

Local Abbreviation reply attempt url config finalConfig :=
  (fetch attempt (requestURL config url) (fetch_init finalConfig)).

(** X6. A transport call that is rejected with a value that is not a
    [FetchError] (a network error) ends the attempt in a [FetchError]
    without status, which the retry loop retries under every retry
    policy, also one whose [retryOn] is empty. *)
Theorem performRequest_rejection_is_retryable attempt url config finalConfig f :
  prepared this_config config = Ok finalConfig ->
  settled (reply attempt url config finalConfig) = Throw (ThrForeign f) ->
  exists e,
    fst (performRequest fetch this_config attempt url config) = Throw (ThrFetchError e)
    /\ fe_status e = None
    /\ forall mergedConfig, retryable mergedConfig (ThrFetchError e) = true.
Proof.
  intros Hprep Hrej.
  assert (Hgoal : exists e,
            fst (performRequest fetch this_config attempt url config)
            = Throw (ThrFetchError e) /\ fe_status e = None).
  { rewrite performRequest_prepared, Hprep. cbn [fst].
    rewrite try_catch_fst. unfold perform_try.
    rewrite bind_fst. cbn [emit fst]. rewrite bind_fst.
    destruct (timer_fires _ _); cbn [throw lift fst]; [|rewrite Hrej];
      unfold perform_catch; rewrite bind_fst;
      destruct (slot_get (timeout finalConfig)); cbn [clear_timer emit ret fst].
    1, 2: cbn [String.eqb Ascii.eqb Bool.eqb throw fst]; eauto.
    1, 2: destruct f as [name message|v]; [destruct (String.eqb name "AbortError")|];
      cbn [throw fst createError]; eauto. }
  destruct Hgoal as (e & He & Hst). exists e. repeat split; try assumption.
  intros mergedConfig. unfold retryable, has_status. now rewrite Hst.
Qed.

(** X7. An [AbortError] from the transport is always read as a timeout,
    also when no timeout is configured: the error then says
    ["Request timeout after undefinedms"] and carries 0 milliseconds. *)
Theorem performRequest_abort_without_timer attempt url config finalConfig message :
  prepared this_config config = Ok finalConfig ->
  slot_get (timeout finalConfig) = None ->
  settled (reply attempt url config finalConfig)
  = Throw (ThrForeign (ErrorObj "AbortError" message)) ->
  performRequest fetch this_config attempt url config
  = (Throw (ThrFetchError (TimeoutError "Request timeout after undefinedms" 0)),
     [EvFetch (requestURL config url) (fetch_init finalConfig)]).
Proof.
  intros Hprep Hnone Hrej.
  rewrite performRequest_prepared, Hprep.
  unfold try_catch, perform_try, perform_catch, timer_fires. rewrite Hnone.
  cbn [emit bind]. rewrite Hrej.
  destruct (timeout finalConfig); try discriminate Hnone; reflexivity.
Qed.

(** X8. A response that fails the status validation ends the attempt in
    a [FetchError] with the response's status and the error body: the
    parsed body, or the raw text when parsing fails and the text can
    still be read.  When parsing fails and the text cannot be read (the
    body is used up), the status is lost: the attempt ends in a
    [FetchError] without status. *)
Theorem performRequest_bad_status attempt url config finalConfig response :
  prepared this_config config = Ok finalConfig ->
  timer_fires (slot_get (timeout finalConfig)) (reply attempt url config finalConfig)
  = false ->
  settled (reply attempt url config finalConfig) = Ok response ->
  isValid finalConfig response = Ok false ->
  let failure errorData :=
    Throw (ThrFetchError
             (FetchErrorClass
                ("Request failed with status " +:+ Js.num_to_string (resp_status response))
                (Some response) (Some (resp_status response))
                (Some (resp_statusText response)) (Some errorData))) in
  (forall d, parseResponse response finalConfig = Ok d ->
     fst (performRequest fetch this_config attempt url config) = failure d)
  /\ (forall t s, parseResponse response finalConfig = Throw t ->
        resp_text response true = Ok s ->
        fst (performRequest fetch this_config attempt url config) = failure (VStr s))
  /\ (forall t f, parseResponse response finalConfig = Throw t ->
        resp_text response true = Throw f ->
        exists e,
          fst (performRequest fetch this_config attempt url config)
          = Throw (ThrFetchError e)
          /\ fe_status e = None).
Proof.
  intros Hprep Hfire Hresp Hvalid failure.
  assert (Hstart : fst (performRequest fetch this_config attempt url config)
                   = match
                       fst (let* errorData :=
                              match parseResponse response finalConfig with
                              | Ok d => ret d
                              | Throw _ =>
                                  lift_foreign
                                    (match resp_text response true with
                                     | Ok s => Ok (VStr s)
                                     | Throw f => Throw f
                                     end)
                              end in
                            throw (ThrFetchError
                                     (FetchErrorClass
                                        ("Request failed with status "
                                           +:+ Js.num_to_string (resp_status response))
                                        (Some response) (Some (resp_status response))
                                        (Some (resp_statusText response))
                                        (Some errorData))))
                     with
                     | Ok a => Ok a
                     | Throw e =>
                         fst (perform_catch finalConfig
                                (slot_get (timeout finalConfig)) e)
                     end).
  { rewrite performRequest_prepared, Hprep. cbn [fst].
    rewrite try_catch_fst. unfold perform_try.
    rewrite bind_fst. cbn [emit fst]. rewrite bind_fst, Hfire, Hresp.
    cbn [lift fst]. rewrite bind_fst.
    destruct (slot_get (timeout finalConfig)); cbn [clear_timer emit ret fst];
      rewrite bind_fst, Hvalid; reflexivity. }
  rewrite Hstart. repeat split.
  - intros d ->. cbn [ret bind throw fst]. unfold perform_catch.
    rewrite bind_fst. now destruct (slot_get (timeout finalConfig)).
  - intros t s -> ->. cbn [lift_foreign bind throw fst]. unfold perform_catch.
    rewrite bind_fst. now destruct (slot_get (timeout finalConfig)).
  - intros t f -> ->. cbn [lift_foreign bind fst]. unfold perform_catch.
    rewrite bind_fst.
    destruct (slot_get (timeout finalConfig)); cbn [clear_timer emit ret fst];
      (destruct f as [name message|v]; [destruct (String.eqb name "AbortError")|]);
      cbn [throw fst createError]; eauto.
Qed.

(** What [parseResponse] throws. *)
Lemma parseResponse_failure response config t :
  parseResponse response config = Throw t ->
  t = ThrFetchError
        (FetchErrorClass
           ("Failed to parse response as " +:+ slot_or (responseType config) "json")
           (Some response) (Some (resp_status response))
           (Some (resp_statusText response)) None).
Proof.
  unfold parseResponse.
  match goal with
  | |- match ?read with _ => _ end = _ -> _ => destruct read
  end; [discriminate | now intros [= <-]].
Qed.

(** X9. A response that passes the validation but whose body cannot be
    read ends the attempt in the parse failure, which names the response
    type and carries the response's status; so the retry loop retries it
    exactly when that status is 0 or retryable. *)
Theorem performRequest_parse_failure attempt url config finalConfig response t :
  prepared this_config config = Ok finalConfig ->
  timer_fires (slot_get (timeout finalConfig)) (reply attempt url config finalConfig)
  = false ->
  settled (reply attempt url config finalConfig) = Ok response ->
  isValid finalConfig response = Ok true ->
  parseResponse response finalConfig = Throw t ->
  fst (performRequest fetch this_config attempt url config)
  = Throw (ThrFetchError
             (FetchErrorClass
                ("Failed to parse response as "
                   +:+ slot_or (responseType finalConfig) "json")
                (Some response) (Some (resp_status response))
                (Some (resp_statusText response)) None))
  /\ forall mergedConfig,
       retryable mergedConfig t
       = if resp_status response =? 0 then true
         else shouldRetry (resp_status response) (retry_codes mergedConfig).
Proof.
  intros Hprep Hfire Hresp Hvalid Hparse.
  pose proof (parseResponse_failure _ _ _ Hparse) as Ht. split.
  - rewrite performRequest_prepared, Hprep. cbn [fst].
    rewrite try_catch_fst. unfold perform_try.
    rewrite bind_fst. cbn [emit fst]. rewrite bind_fst, Hfire, Hresp.
    cbn [lift fst]. rewrite bind_fst.
    destruct (slot_get (timeout finalConfig)); cbn [clear_timer emit ret fst];
      rewrite bind_fst, Hvalid; cbn [lift fst negb]; rewrite bind_fst, Hparse;
      cbn [lift fst]; subst t; unfold perform_catch; rewrite bind_fst; reflexivity.
  - intros mergedConfig. subst t. unfold retryable, has_status. cbn [fe_status].
    now destruct (resp_status response =? 0).
Qed.

(** X10. An attempt succeeds only on a response that arrived before the
    timer, passed the status validation and whose body was read: under
    the default validation that is a response whose [ok] flag is set.
    Without response hooks the result carries that response, its status
    and the parsed body. *)
Theorem performRequest_success attempt url config result :
  fst (performRequest fetch this_config attempt url config) = Ok result ->
  exists finalConfig response d,
    prepared this_config config = Ok finalConfig
    /\ timer_fires (slot_get (timeout finalConfig))
         (reply attempt url config finalConfig) = false
    /\ settled (reply attempt url config finalConfig) = Ok response
    /\ isValid finalConfig response = Ok true
    /\ parseResponse response finalConfig = Ok d
    /\ (slot_get (validateStatus finalConfig) = None -> resp_ok response = true)
    /\ (slot_get (onResponse this_config) = None ->
        fr_raw result = response
        /\ fr_status result = resp_status response
        /\ (slot_get (transformResponse finalConfig) = None -> fr_data result = d)).
Proof.
  rewrite performRequest_prepared.
  destruct (prepared this_config config) as [finalConfig|] eqn:Hprep; [|discriminate].
  cbn [fst]. rewrite try_catch_fst.
  destruct (fst (perform_try _ _ _ _ _ _)) as [r|e0] eqn:E.
  2: { destruct (perform_catch_throws finalConfig (slot_get (timeout finalConfig)) e0)
         as [e ->]. discriminate. }
  intros [= ->]. exists finalConfig.
  unfold perform_try in E. rewrite bind_fst in E. cbn [emit fst] in E.
  rewrite bind_fst in E.
  destruct (timer_fires _ _) eqn:Hfire; [discriminate E|].
  destruct (settled _) as [response|] eqn:Hresp; [|discriminate E].
  cbn [lift fst] in E. rewrite bind_fst in E.
  assert (E' : fst (let* valid := lift (isValid finalConfig response) in
                    if negb valid
                    then
                      let* errorData :=
                        match parseResponse response finalConfig with
                        | Ok d => ret d
                        | Throw _ =>
                            lift_foreign
                              (match resp_text response true with
                               | Ok s => Ok (VStr s)
                               | Throw f => Throw f
                               end)
                        end in
                      throw (ThrFetchError
                               (FetchErrorClass
                                  ("Request failed with status "
                                     +:+ Js.num_to_string (resp_status response))
                                  (Some response) (Some (resp_status response))
                                  (Some (resp_statusText response)) (Some errorData)))
                    else
                      let* data := lift (parseResponse response finalConfig) in
                      let* result0 :=
                        run_hook (onResponse this_config)
                          (mkFetchResponse data (resp_status response)
                             (resp_statusText response) (resp_headers response)
                             response (resp_url response) (resp_ok response)) in
                      match transformResponse finalConfig with
                      | Val f =>
                          let* d := lift (f response (fr_data result0)) in
                          ret (mkFetchResponse d (fr_status result0)
                                 (fr_statusText result0) (fr_headers result0)
                                 (fr_raw result0) (fr_url result0) (fr_ok result0))
                      | _ => ret result0
                      end) = Ok result).
  { destruct (slot_get (timeout finalConfig)); exact E. }
  clear E. rewrite bind_fst in E'.
  destruct (isValid finalConfig response) as [[|]|] eqn:Hvalid; cbn [lift fst negb] in E'.
  3: discriminate E'.
  2: { rewrite bind_fst in E'.
       destruct (parseResponse response finalConfig);
         [|destruct (resp_text response true)]; discriminate E'. }
  rewrite bind_fst in E'.
  destruct (parseResponse response finalConfig) as [d|] eqn:Hparse; [|discriminate E'].
  cbn [lift fst] in E'. exists response, d.
  do 5 (split; [first [reflexivity | assumption]|]). split.
  - intros Hdefault. unfold isValid in Hvalid.
    destruct (validateStatus finalConfig); try discriminate Hdefault;
      simpl in Hvalid; congruence.
  - intros Hhook. rewrite bind_fst in E'.
    destruct (onResponse this_config); try discriminate Hhook;
      cbn [run_hook ret fst fr_data] in E';
      (destruct (transformResponse finalConfig) as [| |f];
       [ | | rewrite bind_fst in E'; cbn [lift fst] in E';
             destruct (f response d); [|discriminate E'] ]);
      cbn in E'; injection E' as <-; cbn;
      (split; [reflexivity | split; [reflexivity|]]);
      intros Htransform; solve [reflexivity | discriminate Htransform].
Qed.

Lemma bind_snd {A B : Type} (m : M A) (k : A -> M B) :
  snd (bind m k)
  = snd m ++ match fst m with
             | Ok a => snd (k a)
             | Throw _ => []
             end.
Proof.
  destruct m as [[a|e] t]; simpl; [now destruct (k a) | now rewrite app_nil_r].
Qed.

Lemma try_catch_snd {A : Type} (m : M A) (handler : Thrown -> M A) :
  snd (try_catch m handler)
  = snd m ++ match fst m with
             | Ok _ => []
             | Throw e => snd (handler e)
             end.
Proof.
  destruct m as [[a|e] t]; simpl; [now rewrite app_nil_r | now destruct (handler e)].
Qed.

Lemma bind_silent {A B : Type} (m : M A) (k : A -> M B) :
  snd m = [] -> (forall a, snd (k a) = []) -> snd (bind m k) = [].
Proof.
  intros Hm Hk. rewrite bind_snd, Hm. destruct (fst m); [apply Hk | reflexivity].
Qed.

Lemma run_hook_silent {A : Type} (hook : Slot (A -> Outcome A)) (a : A) :
  snd (run_hook hook a) = [].
Proof. destruct hook; reflexivity. Qed.

Lemma lift_foreign_silent {A : Type} (o : Try Foreign A) : snd (lift_foreign o) = [].
Proof. destruct o; reflexivity. Qed.

Ltac silent_step :=
  first
    [ reflexivity
    | apply run_hook_silent
    | apply lift_foreign_silent
    | apply bind_silent; [|intros]
    | match goal with
      | |- snd (match ?x with _ => _ end) = [] => destruct x
      | |- snd (if ?x then _ else _) = [] => destruct x
      end ].

(** The [catch] block logs the clearing of the timer and nothing else. *)
Lemma perform_catch_snd finalConfig timer error :
  snd (perform_catch finalConfig timer error) = snd (clear_timer timer).
Proof.
  unfold perform_catch. rewrite bind_snd.
  assert (H : forall X (m : M X), snd m = [] ->
                match fst (clear_timer timer) with
                | Ok _ => snd m
                | Throw _ => []
                end = []).
  { intros X m Hm. now destruct timer. }
  rewrite H; [now rewrite app_nil_r|]. repeat silent_step.
Qed.

(** After the transport call an attempt logs nothing but the clearing
    of its timer, once or twice, and only when there is a timer. *)
Lemma guarded_log attempt url finalConfig :
  exists post,
    snd (guarded attempt url finalConfig)
    = EvFetch url (fetch_init finalConfig) :: post
    /\ (post = snd (clear_timer (slot_get (timeout finalConfig)))
        \/ post = snd (clear_timer (slot_get (timeout finalConfig)))
                    ++ snd (clear_timer (slot_get (timeout finalConfig)))).
Proof.
  rewrite try_catch_snd. unfold perform_try at 1.
  rewrite bind_snd. cbn [emit fst snd app]. rewrite bind_snd.
  set (timer := slot_get (timeout finalConfig)).
  destruct (fst (perform_try fetch this_config attempt url finalConfig timer))
    as [r|e] eqn:Hfst.
  - (* the attempt succeeded: the response arrived and the timer was cleared *)
    assert (Harrived : exists response,
              (if timer_fires timer (fetch attempt url (fetch_init finalConfig))
               then throw (ThrForeign (ErrorObj "AbortError" "This operation was aborted"))
               else lift (settled (fetch attempt url (fetch_init finalConfig))))
              = (Ok response, [])).
    { unfold perform_try in Hfst. rewrite bind_fst in Hfst. cbn [emit fst] in Hfst.
      rewrite bind_fst in Hfst.
      destruct (timer_fires _ _); [discriminate Hfst|].
      destruct (settled _) as [response|]; [eauto | discriminate Hfst]. }
    destruct Harrived as [response ->]. cbn [fst snd app].
    rewrite bind_snd.
    eexists. split; [reflexivity|]. left. rewrite app_nil_r.
    assert (H : forall X (m : M X), snd m = [] ->
                  match fst (clear_timer timer) with
                  | Ok _ => snd m
                  | Throw _ => []
                  end = []) by (intros X m Hm; now destruct timer).
    rewrite H; [now rewrite app_nil_r|]. repeat silent_step.
  - rewrite perform_catch_snd.
    destruct (timer_fires timer (fetch attempt url (fetch_init finalConfig))).
    + cbn [throw fst snd app]. eexists. split; [reflexivity|]. now left.
    + destruct (settled _) as [response|]; cbn [lift fst snd app].
      * rewrite bind_snd.
        assert (H : forall X (m : M X), snd m = [] ->
                      match fst (clear_timer timer) with
                      | Ok _ => snd m
                      | Throw _ => []
                      end = []) by (intros X m Hm; now destruct timer).
        rewrite H; [|repeat silent_step]. rewrite app_nil_r.
        eexists. split; [reflexivity|]. now right.
      * eexists. split; [reflexivity|]. now left.
Qed.

(** X11. An attempt whose headers the platform accepts and whose
    request hooks return calls the transport exactly once, at the URL
    built from the merged configuration; a timer is set before the call
    exactly when the final configuration has a timeout, and it is cleared
    after the call on every path.  An attempt whose headers are refused
    or whose request hook throws logs nothing: no transport call is
    made. *)
Theorem performRequest_log attempt url config :
  match prepared this_config config with
  | Throw t => performRequest fetch this_config attempt url config = (Throw t, [])
  | Ok finalConfig =>
      exists post,
        snd (performRequest fetch this_config attempt url config)
        = timer_log (slot_get (timeout finalConfig))
            ++ EvFetch (requestURL config url) (fetch_init finalConfig) :: post
        /\ Forall (fun e => e = EvClearTimeout) post
        /\ (post = [] <-> slot_get (timeout finalConfig) = None)
  end.
Proof.
  rewrite performRequest_prepared.
  destruct (prepared this_config config) as [finalConfig|t]; [|reflexivity].
  destruct (guarded_log attempt (requestURL config url) finalConfig)
    as (post & Hlog & Hpost).
  exists post. cbn [snd]. rewrite Hlog. split; [reflexivity|].
  destruct (slot_get (timeout finalConfig)); cbn in Hpost;
    destruct Hpost as [-> | ->];
    (split; [repeat constructor | split; intros H; first [reflexivity | discriminate H]]).
Qed.

End Attempt.

(** ** The retry loop in general *)

Section Retries.

Variable fetch : Transport.
Variable this_config : Config.
Variable url : string.
Variable mergedConfig : Config.

Local Abbreviation attempt_at i := (performRequest fetch this_config i url mergedConfig).
Local Abbreviation loop := (attempt_loop fetch this_config url mergedConfig).

(** A retryable failure before the last attempt is followed by the wait
    and the next attempt. *)
Lemma loop_continue attempt later lastError error :
  fst (attempt_at attempt) = Throw error ->
  Z.of_nat attempt <> retry_count mergedConfig ->
  retryable mergedConfig error = true ->
  loop (attempt :: later) lastError
  = (fst (loop later (Some error)),
     EvPerform attempt :: snd (attempt_at attempt)
       ++ EvSleep (retry_delay mergedConfig attempt) :: snd (loop later (Some error))).
Proof.
  intros H Hne Hretry. simpl. destruct (attempt_at attempt) as [o t].
  simpl in H. subst o. apply Z.eqb_neq in Hne. rewrite Hne.
  unfold retryable in Hretry. destruct (has_status error) as [st|].
  - rewrite Hretry. simpl. destruct (loop later (Some error)); reflexivity.
  - destruct (loop later (Some error)); reflexivity.
Qed.

(** The loop stops at an attempt that succeeds, that is the last one, or
    that fails with a status outside the retryable set. *)
Lemma loop_final attempt later lastError :
  (exists response, fst (attempt_at attempt) = Ok response)
  \/ (exists error,
        fst (attempt_at attempt) = Throw error
        /\ (Z.of_nat attempt = retry_count mergedConfig
            \/ retryable mergedConfig error = false)) ->
  loop (attempt :: later) lastError
  = (fst (attempt_at attempt), EvPerform attempt :: snd (attempt_at attempt)).
Proof.
  intros [[response H] | (error & H & [Hlast | Hno])]; rewrite H.
  - now apply loop_success.
  - now apply loop_last.
  - unfold retryable in Hno. destruct (has_status error) as [st|] eqn:Hst;
      [|discriminate Hno].
    now apply (loop_fail_fast _ _ _ _ _ _ _ _ st).
Qed.

Lemma loop_stops_at (retries : nat) :
  forall first lastError later,
    (forall i, (first <= i < first + retries)%nat ->
       exists error,
         fst (attempt_at i) = Throw error
         /\ retryable mergedConfig error = true
         /\ Z.of_nat i <> retry_count mergedConfig) ->
    ((exists response, fst (attempt_at (first + retries)) = Ok response)
     \/ (exists error,
           fst (attempt_at (first + retries)) = Throw error
           /\ (Z.of_nat (first + retries) = retry_count mergedConfig
               \/ retryable mergedConfig error = false))) ->
    fst (loop (seq first (S retries) ++ later) lastError)
    = fst (attempt_at (first + retries))
    /\ schedule (snd (loop (seq first (S retries) ++ later) lastError))
       = retry_schedule mergedConfig first retries.
Proof.
  induction retries as [|r IH]; intros first lastError later Hbefore Hfinal.
  - rewrite Nat.add_0_r in *. cbn [seq app].
    rewrite (loop_final _ _ _ Hfinal). cbn [fst snd]. split; [reflexivity|].
    apply schedule_attempt_last.
  - destruct (Hbefore first ltac:(lia)) as (error & Hfail & Hretry & Hne).
    change (seq first (S (S r)) ++ later) with (first :: seq (S first) (S r) ++ later).
    rewrite (loop_continue _ _ _ _ Hfail Hne Hretry). cbn [fst snd].
    destruct (IH (S first) (Some error) later) as [Hfst Hsched].
    + intros i Hi. apply Hbefore. lia.
    + now replace (S first + r)%nat with (first + S r)%nat by lia.
    + replace (S first + r)%nat with (first + S r)%nat in Hfst by lia.
      split; [exact Hfst|].
      rewrite schedule_attempt, schedule_sleep, Hsched. reflexivity.
Qed.

(** Whatever the attempts do, the loop stops at one of them. *)
Lemma loop_shape (len : nat) :
  forall first lastError,
    Z.of_nat (first + len) = retry_count mergedConfig ->
    exists retries,
      (retries <= len)%nat
      /\ fst (loop (seq first (S len)) lastError) = fst (attempt_at (first + retries))
      /\ schedule (snd (loop (seq first (S len)) lastError))
         = retry_schedule mergedConfig first retries.
Proof.
  induction len as [|len IH]; intros first lastError Hlast.
  - exists 0%nat. rewrite Nat.add_0_r in *. split; [lia|].
    assert (Hfinal : (exists response, fst (attempt_at first) = Ok response)
                     \/ (exists error,
                           fst (attempt_at first) = Throw error
                           /\ (Z.of_nat first = retry_count mergedConfig
                               \/ retryable mergedConfig error = false))).
    { destruct (fst (attempt_at first)) as [response|error]; eauto. }
    cbn [seq]. rewrite (loop_final _ _ _ Hfinal). cbn [fst snd].
    split; [reflexivity | apply schedule_attempt_last].
  - destruct (fst (attempt_at first)) as [response|error] eqn:Hfst.
    + exists 0%nat. rewrite Nat.add_0_r. split; [lia|].
      change (seq first (S (S len))) with (first :: seq (S first) (S len)).
      rewrite (loop_success _ _ _ _ _ _ _ _ Hfst). cbn [fst snd].
      split; [now rewrite Hfst | apply schedule_attempt_last].
    + destruct (retryable mergedConfig error) eqn:Hretry.
      * assert (Hne : Z.of_nat first <> retry_count mergedConfig) by lia.
        destruct (IH (S first) (Some error)) as (r & Hr & Hf & Hs); [rewrite <- Hlast; lia|].
        exists (S r). split; [lia|].
        change (seq first (S (S len))) with (first :: seq (S first) (S len)).
        rewrite (loop_continue _ _ _ _ Hfst Hne Hretry). cbn [fst snd].
        replace (first + S r)%nat with (S first + r)%nat by lia.
        split; [exact Hf|].
        rewrite schedule_attempt, schedule_sleep, Hs. reflexivity.
      * exists 0%nat. rewrite Nat.add_0_r. split; [lia|].
        change (seq first (S (S len))) with (first :: seq (S first) (S len)).
        rewrite (loop_final first _ _).
        -- cbn [fst snd]. split; [reflexivity | apply schedule_attempt_last].
        -- right. eauto.
Qed.

End Retries.

Lemma attempt_range_split (retryCount : Z) (k : nat) :
  Z.of_nat k <= retryCount ->
  attempt_range retryCount = seq 0 (S k) ++ seq (S k) (Z.to_nat retryCount - k).
Proof.
  intros Hk. unfold attempt_range.
  replace (Z.to_nat (retryCount + 1)) with (S k + (Z.to_nat retryCount - k))%nat by lia.
  apply seq_app.
Qed.

(** X12. On the configuration it has merged, [executeRequest] stops at
    the first attempt that succeeds, or fails with a status outside the
    retryable set, or is the last one allowed, after retrying every
    failure before it: its outcome is that attempt's, and its log shows
    the attempts up to it with the wait [delay * backoff ^ i] after each
    failed attempt [i]. *)
Theorem executeRequest_stops_at
  (fetch : Transport) (this_config : Config) (url : string) (config : option Config)
  (mergedConfig : Config) (k : nat) :
  mergeConfig (Some this_config) config = Ok mergedConfig ->
  Z.of_nat k <= retry_count mergedConfig ->
  (forall i, (i < k)%nat ->
     exists error,
       fst (performRequest fetch this_config i url mergedConfig) = Throw error
       /\ retryable mergedConfig error = true) ->
  (Z.of_nat k = retry_count mergedConfig
   \/ (exists response,
         fst (performRequest fetch this_config k url mergedConfig) = Ok response)
   \/ (exists error,
         fst (performRequest fetch this_config k url mergedConfig) = Throw error
         /\ retryable mergedConfig error = false)) ->
  fst (executeRequest fetch this_config url config)
  = fst (performRequest fetch this_config k url mergedConfig)
  /\ schedule (snd (executeRequest fetch this_config url config))
     = retry_schedule mergedConfig 0 k.
Proof.
  intros Hmerge Hk Hbefore Hfinal.
  rewrite (executeRequest_merged _ _ _ _ _ Hmerge).
  rewrite (attempt_range_split _ k Hk).
  apply (loop_stops_at fetch this_config url mergedConfig k 0%nat).
  - intros i Hi. destruct (Hbefore i ltac:(lia)) as (error & Hf & Hr).
    exists error. repeat split; try assumption. lia.
  - cbn [Nat.add].
    destruct (fst (performRequest fetch this_config k url mergedConfig))
      as [response|error] eqn:E; [eauto|].
    right. exists error. split; [reflexivity|].
    destruct Hfinal as [Hlast | [[response H] | (e & H & Hno)]];
      [now left | discriminate H | right; congruence].
Qed.

(** X13. With a retry count of the merged configuration that is not
    negative, [executeRequest] makes at least one attempt and at most
    [count + 1]; it waits only between two attempts,
    [delay * backoff ^ i] after attempt [i]; and its outcome is the
    outcome of the last attempt it made. *)
Theorem executeRequest_shape
  (fetch : Transport) (this_config : Config) (url : string) (config : option Config)
  (mergedConfig : Config) :
  mergeConfig (Some this_config) config = Ok mergedConfig ->
  0 <= retry_count mergedConfig ->
  exists k,
    Z.of_nat k <= retry_count mergedConfig
    /\ fst (executeRequest fetch this_config url config)
       = fst (performRequest fetch this_config k url mergedConfig)
    /\ schedule (snd (executeRequest fetch this_config url config))
       = retry_schedule mergedConfig 0 k.
Proof.
  intros Hmerge Hcount. rewrite (executeRequest_merged _ _ _ _ _ Hmerge).
  unfold attempt_range.
  replace (Z.to_nat (retry_count mergedConfig + 1))
    with (S (Z.to_nat (retry_count mergedConfig))) by lia.
  destruct (loop_shape fetch this_config url mergedConfig
              (Z.to_nat (retry_count mergedConfig)) 0%nat None)
    as (k & Hk & Hf & Hs); [cbn [Nat.add]; lia|].
  exists k. split; [lia|]. now split.
Qed.

(** ** Waiting time *)

Lemma total_wait_app (t1 t2 : list Event) :
  total_wait (t1 ++ t2) = total_wait t1 + total_wait t2.
Proof.
  induction t1 as [|e t1 IH]; [reflexivity|].
  destruct e; simpl; rewrite IH; lia.
Qed.

Lemma total_wait_schedule (t : list Event) : total_wait (schedule t) = total_wait t.
Proof.
  induction t as [|e t IH]; [reflexivity|].
  destruct e; simpl; rewrite ?IH; reflexivity.
Qed.

Lemma geometric_shift (b : Z) (n : nat) : geometric b (S n) = 1 + b * geometric b n.
Proof.
  induction n as [|n IH]; [cbn; lia|].
  change (geometric b (S (S n))) with (geometric b (S n) + b ^ Z.of_nat (S n)).
  rewrite IH at 1. cbn [geometric].
  rewrite Nat2Z.inj_succ, Z.pow_succ_r by lia. ring.
Qed.

Lemma geometric_mono (b : Z) (k n : nat) :
  0 <= b -> (k <= n)%nat -> geometric b k <= geometric b n.
Proof.
  intros Hb Hk. induction Hk as [|n Hk IH]; [lia|].
  cbn [geometric]. pose proof (Z.pow_nonneg b (Z.of_nat n) Hb). lia.
Qed.

Lemma total_wait_retry_schedule (mergedConfig : Config) (retries : nat) :
  forall first,
    total_wait (retry_schedule mergedConfig first retries)
    = base_delay mergedConfig * backoff_factor mergedConfig ^ Z.of_nat first
        * geometric (backoff_factor mergedConfig) retries.
Proof.
  induction retries as [|r IH]; intros first.
  - cbn. ring.
  - cbn [retry_schedule total_wait]. rewrite IH, geometric_shift.
    unfold retry_delay. rewrite Nat2Z.inj_succ, Z.pow_succ_r by lia. ring.
Qed.

(** X14. The time one request spends waiting between attempts is
    [delay * (1 + backoff + ... + backoff ^ (k - 1))] when it stops at
    attempt [k]; with a delay that is not negative and a backoff of at
    least 1 it is at most [delay * (1 + ... + backoff ^ (count - 1))].
    Count, delay and backoff are those of the merged configuration. *)
Theorem executeRequest_total_wait
  (fetch : Transport) (this_config : Config) (url : string) (config : option Config)
  (mergedConfig : Config) :
  mergeConfig (Some this_config) config = Ok mergedConfig ->
  0 <= retry_count mergedConfig ->
  0 <= base_delay mergedConfig ->
  1 <= backoff_factor mergedConfig ->
  total_wait (snd (executeRequest fetch this_config url config))
  <= base_delay mergedConfig
     * geometric (backoff_factor mergedConfig) (Z.to_nat (retry_count mergedConfig))
  /\ exists k,
       schedule (snd (executeRequest fetch this_config url config))
       = retry_schedule mergedConfig 0 k
       /\ total_wait (snd (executeRequest fetch this_config url config))
          = base_delay mergedConfig * geometric (backoff_factor mergedConfig) k.
Proof.
  intros Hmerge Hcount Hdelay Hbackoff.
  assert (Hshape : exists k,
            Z.of_nat k <= retry_count mergedConfig
            /\ schedule (snd (executeRequest fetch this_config url config))
               = retry_schedule mergedConfig 0 k).
  { rewrite (executeRequest_merged _ _ _ _ _ Hmerge). unfold attempt_range.
    replace (Z.to_nat (retry_count mergedConfig + 1))
      with (S (Z.to_nat (retry_count mergedConfig))) by lia.
    destruct (loop_shape fetch this_config url mergedConfig
                (Z.to_nat (retry_count mergedConfig)) 0%nat None)
      as (k & Hk & _ & Hs); [cbn [Nat.add]; lia|].
    exists k. split; [lia | exact Hs]. }
  destruct Hshape as (k & Hk & Hs).
  assert (Hwait : total_wait (snd (executeRequest fetch this_config url config))
                  = base_delay mergedConfig
                    * geometric (backoff_factor mergedConfig) k).
  { rewrite <- total_wait_schedule, Hs, total_wait_retry_schedule.
    change (Z.of_nat 0) with 0. rewrite Z.pow_0_r. ring. }
  split; [|eauto].
  rewrite Hwait. apply Z.mul_le_mono_nonneg_l; [exact Hdelay|].
  apply geometric_mono; lia.
Qed.

(** ** What a request logs *)

Section RequestLog.

Variable fetch : Transport.
Variable this_config : Config.
Variable url : string.

Lemma attempt_loop_log (Q : Event -> Prop) mergedConfig :
  (forall attempt, Q (EvPerform attempt)) ->
  (forall ms, Q (EvSleep ms)) ->
  (forall attempt,
     Forall Q (snd (performRequest fetch this_config attempt url mergedConfig))) ->
  forall attempts lastError,
    Forall Q (snd (attempt_loop fetch this_config url mergedConfig attempts lastError)).
Proof.
  intros Hperform Hsleep Hattempt.
  induction attempts as [|attempt later IH]; intros lastError; [constructor|].
  simpl. specialize (Hattempt attempt).
  destruct (performRequest fetch this_config attempt url mergedConfig) as [[r|e] t];
    cbn [snd] in *.
  - now constructor.
  - destruct (Z.of_nat attempt =? retry_count mergedConfig); [now constructor|].
    match goal with
    | |- context [if ?c then _ else _] => destruct c
    end; [now constructor|].
    specialize (IH (Some e)).
    destruct (attempt_loop fetch this_config url mergedConfig later (Some e)) as [r' t'].
    cbn [snd] in *. constructor; [apply Hperform|].
    apply Forall_app. split; [exact Hattempt|]. constructor; [apply Hsleep | exact IH].
Qed.

(** What one attempt logs: the timer, one transport call, and the
    clearing of the timer. *)
Lemma performRequest_events (Q : Event -> Prop) attempt config :
  (forall ms, Q (EvSetTimeout ms)) ->
  Q EvClearTimeout ->
  (forall finalConfig,
     prepared this_config config = Ok finalConfig ->
     Q (EvFetch (requestURL config url) (fetch_init finalConfig))) ->
  Forall Q (snd (performRequest fetch this_config attempt url config)).
Proof.
  intros Hset Hclear Hfetch.
  pose proof (performRequest_log fetch this_config attempt url config) as Hlog.
  destruct (prepared this_config config) as [finalConfig|t].
  - destruct Hlog as (post & -> & Hpost & _). apply Forall_app. split.
    + destruct (slot_get (timeout finalConfig)); repeat constructor. apply Hset.
    + constructor; [now apply Hfetch|].
      eapply Forall_impl; [exact Hpost|]. now intros e ->.
  - rewrite Hlog. constructor.
Qed.

(** What [executeRequest] logs: nothing when the merge throws, and the
    log of the loop otherwise. *)
Lemma executeRequest_log (Q : Event -> Prop) (config : option Config) :
  (forall attempt, Q (EvPerform attempt)) ->
  (forall ms, Q (EvSleep ms)) ->
  (forall mergedConfig attempt,
     mergeConfig (Some this_config) config = Ok mergedConfig ->
     Forall Q (snd (performRequest fetch this_config attempt url mergedConfig))) ->
  Forall Q (snd (executeRequest fetch this_config url config)).
Proof.
  intros Hperform Hsleep Hattempt.
  destruct (mergeConfig (Some this_config) config) as [mergedConfig|thrown] eqn:E.
  - rewrite (executeRequest_merged _ _ _ _ _ E). apply attempt_loop_log; auto.
  - rewrite (executeRequest_unmerged _ _ _ _ _ E). constructor.
Qed.

(** [request] adds to the log of [executeRequest] at most the call of
    the error interceptor. *)
Lemma request_adds_onError (Q : Event -> Prop) (config : option Config) :
  (forall e, Q (EvOnError e)) ->
  Forall Q (snd (executeRequest fetch this_config url config)) ->
  Forall Q (snd (request fetch this_config url config)).
Proof.
  intros Hon Hexec. unfold request.
  destruct (executeRequest fetch this_config url config) as [[response|error] t];
    cbn [snd] in *; [exact Hexec|].
  match goal with
  | |- context [let '(r, t') := ?m in _] => destruct m as [r t'] eqn:Em
  end.
  cbn [snd]. apply Forall_app. split; [exact Hexec|].
  destruct (onError this_config) as [| |h]; cbn in Em.
  1, 2: injection Em as <- <-; constructor.
  destruct (h _); injection Em as <- <-; repeat constructor; apply Hon.
Qed.

(** X15. Every transport call of a request, the first attempt or a
    retry, names a method, and its signal is the one of the attempt's own
    abort controller, never the signal the caller configured or a request
    hook returned. *)
Theorem request_transport_calls (config : option Config) :
  transport_calls
    (fun _ init =>
       signal init = Val "controller.signal" /\ exists m, method init = Val m)
    (snd (request fetch this_config url config)).
Proof.
  unfold transport_calls.
  apply request_adds_onError; [exact (fun _ => I)|].
  apply executeRequest_log; try exact (fun _ => I).
  intros mergedConfig attempt _.
  apply performRequest_events; try exact (fun _ => I); [exact I|].
  intros finalConfig _. split; [reflexivity|]. cbn. eauto.
Qed.

(** X28. The URL of a request is fixed by the merged configuration:
    every transport call, the first attempt or a retry, goes to the URL
    built from its [baseURL] and [params], whatever configuration the
    request hooks return.  (Hooks are functions of the configuration
    they receive; one that changes the objects it is handed in place is
    outside this reading.) *)
Theorem request_url_is_fixed (config : option Config) (mergedConfig : Config) :
  mergeConfig (Some this_config) config = Ok mergedConfig ->
  transport_calls (fun u _ => u = requestURL mergedConfig url)
    (snd (request fetch this_config url config)).
Proof.
  intros Hmerge. unfold transport_calls.
  apply request_adds_onError; [exact (fun _ => I)|].
  apply executeRequest_log; try exact (fun _ => I).
  intros merged attempt Hm. rewrite Hmerge in Hm. injection Hm as <-.
  apply performRequest_events; try exact (fun _ => I); [exact I|].
  intros finalConfig _. reflexivity.
Qed.

Lemma filter_none (p : Event -> bool) (t : list Event) :
  Forall (fun e => p e = false) t -> List.filter p t = [].
Proof.
  induction 1 as [|e t He _ IH]; [reflexivity|]. simpl. now rewrite He.
Qed.

(** X16. The error interceptor is called once for a request that fails,
    with the error of the [Result], however many attempts were made, and
    it is not called for a request that succeeds. *)
Theorem request_calls_onError_once (config : option Config) :
  List.filter is_onError (snd (request fetch this_config url config))
  = match fst (executeRequest fetch this_config url config), onError this_config with
    | Throw thrown, Val _ => [EvOnError (createError thrown)]
    | _, _ => []
    end.
Proof.
  assert (Hexec : List.filter is_onError
                    (snd (executeRequest fetch this_config url config)) = []).
  { apply filter_none. apply executeRequest_log; try reflexivity.
    intros mergedConfig attempt _. apply performRequest_events; reflexivity. }
  unfold request.
  destruct (executeRequest fetch this_config url config) as [[response|error] t];
    cbn [fst snd] in *.
  - rewrite Hexec. now destruct (onError this_config).
  - assert (Hc : match error with ThrFetchError e0 => e0 | _ => createError error end
                 = createError error) by (destruct error; reflexivity).
    rewrite Hc.
    destruct (onError this_config) as [| |h]; cbn.
    1, 2: now rewrite app_nil_r.
    destruct (h (createError error)); cbn; rewrite List.filter_app, Hexec; reflexivity.
Qed.

End RequestLog.

(** ** The installed wrapper and the life cycle of the polyfill *)

(** X17. The function installed as [globalThis.fetch] (its fetcher's
    error interceptor absent or returning) resolves with the raw response
    of the attempt that succeeded, and rejects with a [FetchError] in
    every other case: a response with a bad status makes it reject,
    where the platform's [fetch] resolves. *)
Theorem wrapper_outcome
  (fetch : Transport) (fetcher : Config) (input : GlobalFetch.Input)
  (init : option Settings) :
  onError_returns fetcher ->
  fst (GlobalFetch.wrapper fetch fetcher input init)
  = match
      fst (executeRequest fetch fetcher (GlobalFetch.input_url input)
             (Some (GlobalFetch.fetchConfig init)))
    with
    | Ok response => Ok (fr_raw response)
    | Throw thrown => Throw (ThrFetchError (createError thrown))
    end.
Proof.
  intros Hhook. unfold GlobalFetch.wrapper. rewrite bind_fst.
  destruct (fst (executeRequest fetch fetcher (GlobalFetch.input_url input)
                   (Some (GlobalFetch.fetchConfig init)))) as [response|thrown] eqn:E.
  - now rewrite (request_of_success _ _ _ _ _ E).
  - rewrite (request_of_failure _ _ _ _ _ E).
    destruct (onError fetcher) as [| |h] eqn:Eh; try reflexivity.
    now destruct (Hhook h (createError thrown) Eh) as [u ->].
Qed.

Lemma wrapper_outcome_witness :
  fst (GlobalFetch.wrapper (constTransport 5 404 VNull) emptyConfig
         (GlobalFetch.InOther (VStr "https://api.example.com/users/999")) None)
  = Throw (ThrFetchError
             (FetchErrorClass "Request failed with status 404"
                (Some (mockResponse 404 VNull)) (Some 404) (Some "status text")
                (Some VNull))).
Proof.
  assert (Hret : onError_returns emptyConfig) by (intros h e [=]).
  exact (wrapper_outcome (constTransport 5 404 VNull) emptyConfig
           (GlobalFetch.InOther (VStr "https://api.example.com/users/999")) None Hret).
Defined.

Lemma install_all_keeps_original (f : Polyfill.FetchImpl)
  (configs : list (option Config)) :
  forall g,
    Polyfill.originalFetch g = Some f ->
    Polyfill.originalFetch (GlobalFetch.install_all configs g) = Some f.
Proof.
  induction configs as [|c configs IH]; intros g Hg; [exact Hg|].
  apply IH. unfold Polyfill.polyfillFetch. simpl. now rewrite Hg.
Qed.

(** X18. However many times [polyfillFetch] is called on a process that
    has a global [fetch], one [restoreFetch] puts that original function
    back, forgets it, and returns [true]: installing over an installed
    wrapper does not capture the wrapper. *)
Theorem install_restore_roundtrip
  (f : Polyfill.FetchImpl) (config : option Config) (configs : list (option Config)) :
  let g := Polyfill.mkGlobals (Polyfill.Callable f) None in
  Polyfill.restoreFetch (GlobalFetch.install_all (config :: configs) g) = (true, g)
  /\ Polyfill.isPolyfilled (GlobalFetch.install_all (config :: configs) g) = true.
Proof.
  intros g.
  assert (H : Polyfill.originalFetch (GlobalFetch.install_all (config :: configs) g)
              = Some f).
  { change (GlobalFetch.install_all (config :: configs) g)
      with (GlobalFetch.install_all configs (snd (Polyfill.polyfillFetch config g))).
    apply install_all_keeps_original. reflexivity. }
  unfold Polyfill.restoreFetch, Polyfill.isPolyfilled. now rewrite H.
Qed.

(** X19. [restoreFetch] is not idempotent: a second call in a row (and
    so a call when nothing is installed) finds nothing captured, removes
    the global [fetch] altogether, and returns [false]. *)
Theorem restoreFetch_twice_removes_fetch (g : Polyfill.Globals) :
  let restored := snd (Polyfill.restoreFetch g) in
  Polyfill.restoreFetch restored = (false, Polyfill.mkGlobals Polyfill.Missing None).
Proof.
  unfold Polyfill.restoreFetch. destruct (Polyfill.originalFetch g); reflexivity.
Qed.

(** ** Headers *)

Lemma lower_char_idem (c : ascii) : Js.lower_char (Js.lower_char c) = Js.lower_char c.
Proof. destruct c as [[] [] [] [] [] [] [] []]; reflexivity. Qed.

Lemma lower_idem (s : string) : Js.lower (Js.lower s) = Js.lower s.
Proof.
  induction s as [|c s IH]; [reflexivity|].
  simpl. now rewrite lower_char_idem, IH.
Qed.

Lemma string_forall_lower (p : ascii -> bool) (s : string) :
  (forall c, p (Js.lower_char c) = p c) ->
  string_forall p (Js.lower s) = string_forall p s.
Proof.
  intros Hp. induction s as [|c s IH]; [reflexivity|].
  simpl. now rewrite Hp, IH.
Qed.

Lemma string_forall_strip_leading (p : ascii -> bool) (s : string) :
  string_forall p s = true -> string_forall p (strip_leading_whitespace s) = true.
Proof.
  induction s as [|c s IH]; [trivial|].
  cbn [strip_leading_whitespace]. destruct (http_whitespace c); [|trivial].
  cbn [string_forall]. intros H. apply andb_true_iff in H as [_ H]. now apply IH.
Qed.

Lemma strip_trailing_cons (c : ascii) (s : string) :
  strip_trailing_whitespace (String c s)
  = match strip_trailing_whitespace s with
    | EmptyString => if http_whitespace c then EmptyString else String c EmptyString
    | kept => String c kept
    end.
Proof. reflexivity. Qed.

Lemma string_forall_strip_trailing (p : ascii -> bool) (s : string) :
  string_forall p s = true -> string_forall p (strip_trailing_whitespace s) = true.
Proof.
  induction s as [|c s IH]; [trivial|].
  cbn [string_forall]. intros H. apply andb_true_iff in H as [Hc Hs].
  specialize (IH Hs). rewrite strip_trailing_cons.
  destruct (strip_trailing_whitespace s) as [|d kept].
  - destruct (http_whitespace c); cbn [string_forall]; [reflexivity | now rewrite Hc].
  - cbn [string_forall] in *. now rewrite Hc, IH.
Qed.

Lemma strip_trailing_idem (s : string) :
  strip_trailing_whitespace (strip_trailing_whitespace s) = strip_trailing_whitespace s.
Proof.
  induction s as [|c s IH]; [reflexivity|].
  rewrite strip_trailing_cons.
  destruct (strip_trailing_whitespace s) as [|d kept] eqn:E.
  - destruct (http_whitespace c) eqn:Ec; [reflexivity|].
    rewrite strip_trailing_cons. cbn [strip_trailing_whitespace]. now rewrite Ec.
  - rewrite strip_trailing_cons, IH. reflexivity.
Qed.

(** A normalized value has no whitespace left to strip. *)
Lemma strip_leading_normalized (value : string) :
  strip_leading_whitespace (normalize_value value) = normalize_value value.
Proof.
  unfold normalize_value. induction value as [|c rest IH]; [reflexivity|].
  cbn [strip_leading_whitespace]. destruct (http_whitespace c) eqn:Ec; [exact IH|].
  rewrite strip_trailing_cons.
  destruct (strip_trailing_whitespace rest); [rewrite Ec|];
    cbn [strip_leading_whitespace]; now rewrite Ec.
Qed.

Lemma normalize_value_idem (value : string) :
  normalize_value (normalize_value value) = normalize_value value.
Proof.
  unfold normalize_value at 1. rewrite strip_leading_normalized.
  unfold normalize_value. apply strip_trailing_idem.
Qed.

Lemma token_char_lower (c : ascii) : token_char (Js.lower_char c) = token_char c.
Proof. destruct c as [[] [] [] [] [] [] [] []]; reflexivity. Qed.

Lemma byte_char_lower (c : ascii) :
  (N_of_ascii (Js.lower_char c) <? 196)%N = (N_of_ascii c <? 196)%N.
Proof. destruct c as [[] [] [] [] [] [] [] []]; reflexivity. Qed.

(** What [set] stores it accepts again, and stores unchanged. *)
Lemma accepted_stored (entry : string * string) :
  accepted entry = true ->
  accepted (stored entry) = true /\ stored (stored entry) = stored entry.
Proof.
  destruct entry as [name value]. unfold accepted, stored. cbn [fst snd]. intros H.
  apply andb_true_iff in H as [H Hvalue].
  apply andb_true_iff in H as [H Hname].
  apply andb_true_iff in H as [Hbn Hbv].
  split; [|now rewrite lower_idem, normalize_value_idem].
  rewrite normalize_value_idem, Hvalue, andb_true_r.
  apply andb_true_iff. split; [apply andb_true_iff; split|].
  - unfold is_byte_string in *. rewrite string_forall_lower; [exact Hbn|].
    intros c. apply byte_char_lower.
  - unfold is_byte_string, normalize_value in *.
    now apply string_forall_strip_trailing, string_forall_strip_leading.
  - unfold is_header_name in *. apply andb_true_iff in Hname as [Hne Htoken].
    apply andb_true_iff. split.
    + destruct name; [discriminate Hne | reflexivity].
    + rewrite string_forall_lower; [exact Htoken|]. intros c. apply token_char_lower.
Qed.

Lemma well_formed_empty : well_formed ∅.
Proof. intros name value. now rewrite lookup_empty. Qed.

Lemma set_each_well_formed (l : list (string * string)) :
  forall acc merged,
    set_each l acc = Ok merged -> well_formed acc -> well_formed merged.
Proof.
  induction l as [|entry l IH]; intros acc merged; simpl.
  - now intros [= ->].
  - unfold headers_set. destruct (accepted entry) eqn:Ea; [|discriminate].
    intros H Hacc. apply (IH _ _ H). intros name value.
    destruct (decide (Js.lower (fst entry) = name)) as [<-|Hne].
    + rewrite lookup_insert_eq. intros [= <-].
      destruct (accepted_stored entry Ea) as [Hs _]. unfold stored in Hs.
      split; [apply lower_idem|]. split; [exact Hs | apply normalize_value_idem].
    + rewrite lookup_insert_ne by exact Hne. apply Hacc.
Qed.

Lemma mergeHeaders_well_formed (headersList : list (option HeadersInit))
  (merged : gmap string string) :
  mergeHeaders headersList = Ok merged -> well_formed merged.
Proof.
  rewrite mergeHeaders_set_each. intros H.
  exact (set_each_well_formed _ _ _ H well_formed_empty).
Qed.

(** X20. The [Headers] that [mergeHeaders] builds hold every name in
    lower case, so two spellings of one name never coexist, and a header
    is found under any spelling of its name; every pair in them is one
    the platform accepts, stored without surrounding whitespace. *)
Theorem mergeHeaders_normalised (headersList : list (option HeadersInit))
  (merged : gmap string string) :
  mergeHeaders headersList = Ok merged ->
  normalised merged
  /\ well_formed merged
  /\ forall name1 name2,
       Js.lower name1 = Js.lower name2 ->
       headers_get name1 merged = headers_get name2 merged.
Proof.
  intros H. pose proof (mergeHeaders_well_formed _ _ H) as Hwf.
  split; [|split; [exact Hwf|]].
  - intros name value Hin. now apply (Hwf name value).
  - intros name1 name2 Hn. unfold headers_get. now rewrite Hn.
Qed.

Lemma mergeHeaders_normalised_witness :
  exists merged,
    mergeHeaders [Some (HInitRecord [("Accept", "text/html")]);
                  Some (HInitArray [("ACCEPT", " application/json ")])]
    = Ok merged
    /\ normalised merged
    /\ headers_get "Accept" merged = headers_get "accept" merged
    /\ headers_get "accept" merged = Some "application/json".
Proof.
  pose (merged := match mergeHeaders
                          [Some (HInitRecord [("Accept", "text/html")]);
                           Some (HInitArray [("ACCEPT", " application/json ")])] with
                  | Ok merged => merged
                  | Throw _ => ∅
                  end).
  assert (H : mergeHeaders [Some (HInitRecord [("Accept", "text/html")]);
                            Some (HInitArray [("ACCEPT", " application/json ")])]
              = Ok merged) by (vm_compute; reflexivity).
  destruct (mergeHeaders_normalised _ merged H) as (Hn & _ & Hget).
  exists merged. split; [exact H|]. split; [exact Hn|]. split.
  - apply Hget. reflexivity.
  - vm_compute. reflexivity.
Defined.

Lemma last_entry_list_to_map {V : Type} (l : list (string * V)) (k : string) :
  NoDup (l.*1) -> last_entry l k = (list_to_map l : gmap string V) !! k.
Proof.
  induction l as [|[k0 v0] l IH]; intros Hnodup.
  - symmetry. apply lookup_empty.
  - apply NoDup_cons in Hnodup as [Hfresh Hnodup].
    cbn [last_entry]. rewrite (IH Hnodup).
    change (list_to_map ((k0, v0) :: l) : gmap string V)
      with (<[k0 := v0]> (list_to_map l : gmap string V)).
    destruct (String.eqb k0 k) eqn:E.
    + apply String.eqb_eq in E. subst k.
      rewrite lookup_insert_eq.
      now rewrite (not_elem_of_list_to_map_1 (M := gmap string) l k0 Hfresh).
    + apply String.eqb_neq in E. rewrite lookup_insert_ne by exact E.
      now destruct (_ !! k).
Qed.

(** Setting the pairs of a [Headers] object on an empty one gives that
    object. *)
Lemma set_each_map_to_list (h : gmap string string) :
  well_formed h -> set_each (map_to_list h) ∅ = Ok h.
Proof.
  intros Hwf.
  assert (Hacc : forallb accepted (map_to_list h) = true).
  { apply List.forallb_forall. intros [name value] Hin.
    apply list_elem_of_In, elem_of_map_to_list in Hin.
    now apply (Hwf name value). }
  destruct (set_each_accepted _ ∅ Hacc) as [merged Hm]. rewrite Hm. f_equal.
  apply map_eq. intros k. rewrite (set_each_lookup _ _ _ k Hm), lookup_empty.
  assert (Hst : List.map stored (map_to_list h) = map_to_list h).
  { rewrite <- (List.map_id (map_to_list h)) at 2. apply List.map_ext_in.
    intros [name value] Hin. apply list_elem_of_In, elem_of_map_to_list in Hin.
    destruct (Hwf name value Hin) as (Hl & _ & Hv).
    unfold stored. cbn [fst snd]. now rewrite Hl, Hv. }
  rewrite Hst, last_entry_list_to_map by apply NoDup_fst_map_to_list.
  rewrite list_to_map_to_list. now destruct (h !! k).
Qed.

(** X21. Merging a [Headers] object alone gives that object back: the
    headers of a merged configuration can be merged again without
    change. *)
Theorem mergeHeaders_Headers_roundtrip (h : gmap string string) :
  well_formed h -> mergeHeaders [Some (HInitHeaders h)] = Ok h.
Proof.
  intros Hwf. rewrite mergeHeaders_set_each.
  change (all_pairs [Some (HInitHeaders h)]) with (map_to_list h ++ []).
  rewrite List.app_nil_r. now apply set_each_map_to_list.
Qed.

Lemma mergeHeaders_Headers_roundtrip_witness :
  exists h,
    mergeHeaders [Some (HInitRecord [("Accept", " a ")])] = Ok h
    /\ mergeHeaders [Some (HInitHeaders h)] = Ok h.
Proof.
  pose (h := match mergeHeaders [Some (HInitRecord [("Accept", " a ")])] with
             | Ok merged => merged
             | Throw _ => ∅
             end).
  assert (H : mergeHeaders [Some (HInitRecord [("Accept", " a ")])] = Ok h)
    by (vm_compute; reflexivity).
  exists h. split; [exact H|].
  apply mergeHeaders_Headers_roundtrip.
  exact (mergeHeaders_well_formed _ _ H).
Defined.

Lemma all_pairs_pair (first second : option HeadersInit) :
  all_pairs [first; second]
  = match first with Some init => header_entries init | None => [] end
    ++ match second with Some init => header_entries init | None => [] end.
Proof.
  unfold all_pairs. simpl. now rewrite List.app_nil_r.
Qed.

(** X22. Extending twice layers the headers: the second extension can
    fail only on the headers of its own override, and in its result a
    name is looked up in the second override first, then in the first
    one, then in the instance. *)
Theorem extend_twice_headers (this_config a b once : Config) :
  extend this_config (Some a) = Ok once ->
  forallb accepted (header_pairs (headers b)) = true ->
  exists twice h,
    extend once (Some b) = Ok twice
    /\ headers twice = Val (HInitHeaders h)
    /\ forall name,
         headers_get name h
         = match last_header (header_pairs (headers b)) name with
           | Some v => Some v
           | None =>
               match last_header (header_pairs (headers a)) name with
               | Some v => Some v
               | None => last_header (header_pairs (headers this_config)) name
               end
           end.
Proof.
  unfold extend. intros Honce Hb.
  unfold mergeConfig in Honce.
  destruct (mergeHeaders [slot_get (headers this_config); slot_get (headers a)])
    as [h1|f] eqn:E1; [|discriminate Honce].
  injection Honce as <-.
  pose proof (mergeHeaders_well_formed _ _ E1) as Hwf.
  assert (Hmerge : exists h,
            mergeHeaders [Some (HInitHeaders h1); slot_get (headers b)] = Ok h
            /\ set_each (header_pairs (headers b)) h1 = Ok h).
  { rewrite mergeHeaders_set_each, all_pairs_pair. cbn [header_entries].
    fold (header_pairs (headers b)).
    rewrite set_each_app, (set_each_map_to_list h1 Hwf).
    destruct (set_each_accepted _ h1 Hb) as [h Hh]. exists h. now rewrite Hh. }
  destruct Hmerge as (h & Hh & Hset).
  unfold mergeConfig. cbn [settings headers slot_get]. rewrite Hh.
  eexists. exists h. split; [reflexivity|]. split; [reflexivity|].
  intros name. unfold headers_get. rewrite (set_each_lookup _ _ _ _ Hset).
  fold (last_header (header_pairs (headers b)) name).
  destruct (last_header (header_pairs (headers b)) name); [reflexivity|].
  fold (headers_get name h1).
  rewrite (mergeHeaders_lookup _ _ name E1), all_pairs_two. apply last_header_app.
Qed.

Lemma extend_twice_headers_witness :
  exists once twice h,
    extend (headersConfig [("Accept", "text/html"); ("X-Api", "1")])
      (Some (headersConfig [("X-Trace", "on")]))
    = Ok once
    /\ extend once (Some (headersConfig [("accept", "text/plain")])) = Ok twice
    /\ headers twice = Val (HInitHeaders h)
    /\ headers_get "Accept" h = Some "text/plain"
    /\ headers_get "x-trace" h = Some "on"
    /\ headers_get "X-API" h = Some "1".
Proof.
  pose (once := match extend (headersConfig [("Accept", "text/html"); ("X-Api", "1")])
                        (Some (headersConfig [("X-Trace", "on")])) with
                | Ok merged => merged
                | Throw _ => emptyConfig
                end).
  assert (Honce : extend (headersConfig [("Accept", "text/html"); ("X-Api", "1")])
                    (Some (headersConfig [("X-Trace", "on")]))
                  = Ok once) by (vm_compute; reflexivity).
  destruct (extend_twice_headers _ _ (headersConfig [("accept", "text/plain")]) once
              Honce eq_refl) as (twice & h & Htwice & Hh & Hget).
  exists once, twice, h.
  split; [exact Honce|]. split; [exact Htwice|]. split; [exact Hh|].
  rewrite !Hget. repeat split.
Defined.

Lemma getContentType_nonempty (body : JsVal) (ct : string) :
  getContentType body = Some ct -> String.eqb ct EmptyString = false.
Proof.
  destruct body; simpl; try discriminate; try (now intros [= <-]).
  destruct (String.eqb type EmptyString) eqn:E; now intros [= <-].
Qed.

(** X23. In the headers an attempt assembles, a [Content-Type] that the
    configuration gives under any spelling wins over the one derived from
    the body; without one the derived type is used; and every other
    header is the configured one.  Without request hooks these headers,
    and the serialized body, are what the transport receives. *)
Theorem assembledHeaders_content_type (config : Config) (assembled : gmap string string) :
  assembledHeaders config = Ok assembled ->
  headers_get "Content-Type" assembled
  = match last_header (header_pairs (headers config)) "Content-Type" with
    | Some v => Some v
    | None => option_map normalize_value (getContentType (body_value (body config)))
    end
  /\ (forall name,
        Js.lower name <> "content-type" ->
        headers_get name assembled = last_header (header_pairs (headers config)) name)
  /\ (forall this_config,
        slot_get (onRequest this_config) = None ->
        slot_get (transformRequest config) = None ->
        exists finalConfig,
          prepared this_config config = Ok finalConfig
          /\ headers (fetch_init finalConfig) = Val (HInitHeaders assembled)
          /\ body (fetch_init finalConfig)
             = body_slot (serializeBody (body_value (body config)))).
Proof.
  intros Hassembled.
  assert (Hget : forall name,
            headers_get name assembled
            = match last_header (header_pairs (headers config)) name with
              | Some v => Some v
              | None =>
                  match getContentType (body_value (body config)) with
                  | Some ct =>
                      if String.eqb "content-type" (Js.lower name)
                      then Some (normalize_value ct) else None
                  | None => None
                  end
              end).
  { intros name. unfold assembledHeaders in Hassembled.
    rewrite (mergeHeaders_lookup _ _ name Hassembled), all_pairs_pair.
    fold (header_pairs (headers config)). rewrite last_header_app.
    destruct (last_header (header_pairs (headers config)) name); [reflexivity|].
    unfold derived_content_type.
    destruct (getContentType (body_value (body config))) as [ct|] eqn:E; [|reflexivity].
    rewrite (getContentType_nonempty _ _ E). reflexivity. }
  split; [|split].
  - rewrite Hget.
    destruct (last_header (header_pairs (headers config)) "Content-Type");
      [reflexivity|].
    now destruct (getContentType (body_value (body config))).
  - intros name Hname. rewrite Hget.
    destruct (last_header (header_pairs (headers config)) name); [reflexivity|].
    destruct (getContentType (body_value (body config))); [|reflexivity].
    destruct (String.eqb "content-type" (Js.lower name)) eqn:E; [|reflexivity].
    apply String.eqb_eq in E. now destruct Hname.
  - intros this_config H1 H2. unfold prepared. rewrite Hassembled.
    destruct (onRequest this_config); try discriminate H1;
      destruct (transformRequest config); try discriminate H2;
      eexists; repeat split.
Qed.

Lemma assembledHeaders_content_type_witness :
  exists assembled,
    assembledHeaders
      (mkConfig
         (mkSettings Absent (Val (VObj [("name", VStr "John")])) Absent Absent Absent
            (Val (HInitRecord [("content-type", "text/plain"); ("X-Api", "1")]))
            Absent Absent Absent Absent Absent Absent Absent Absent ∅)
         Absent Absent)
    = Ok assembled
    /\ headers_get "Content-Type" assembled = Some "text/plain"
    /\ headers_get "x-api" assembled = Some "1".
Proof.
  pose (config := mkConfig
         (mkSettings Absent (Val (VObj [("name", VStr "John")])) Absent Absent Absent
            (Val (HInitRecord [("content-type", "text/plain"); ("X-Api", "1")]))
            Absent Absent Absent Absent Absent Absent Absent Absent ∅)
         Absent Absent).
  pose (assembled := match assembledHeaders config with
                     | Ok merged => merged
                     | Throw _ => ∅
                     end).
  assert (H : assembledHeaders config = Ok assembled) by (vm_compute; reflexivity).
  destruct (assembledHeaders_content_type config assembled H) as (Hct & Hother & _).
  exists assembled. split; [exact H|]. split.
  - rewrite Hct. reflexivity.
  - rewrite (Hother "x-api") by discriminate. reflexivity.
Defined.

(** X24. Whatever the body is, [serializeBody] returns [undefined] or a
    value the transport accepts as a body (a string, a [Blob], an
    [ArrayBuffer], a [FormData], a [URLSearchParams] or a
    [ReadableStream]), and serializing that value again changes
    nothing. *)
Theorem serializeBody_BodyInit (body : JsVal) :
  is_BodyInit_or_undefined (serializeBody body) = true
  /\ serializeBody (serializeBody body) = serializeBody body.
Proof.
  destruct body as [| |[]| | | | | | | | |]; split; reflexivity.
Qed.

(** X25. The derived content type is [application/json] although the
    body is sent as it is, not as JSON text, for exactly two kinds of
    body: a [ReadableStream], which [getContentType] takes for a plain
    object, and a [Blob] whose own type is [application/json]. *)
Theorem json_content_type_without_serialization (body : JsVal) :
  serializeBody body = body /\ getContentType body = Some "application/json"
  <-> (exists chunks, body = VReadableStream chunks)
      \/ (exists bytes, body = VBlob "application/json" bytes).
Proof.
  split.
  - intros [Hsame Htype]. destruct body; simpl in *; try discriminate.
    + right. destruct (String.eqb type EmptyString) eqn:E; [discriminate Htype|].
      injection Htype as ->. eauto.
    + left. eauto.
  - intros [[chunks ->] | [bytes ->]]; split; reflexivity.
Qed.

(** ** The default instance *)

Lemma request_schedule fetch this_config url config :
  schedule (snd (request fetch this_config url config))
  = schedule (snd (executeRequest fetch this_config url config)).
Proof.
  unfold request.
  destruct (executeRequest fetch this_config url config) as [[response|error] t];
    [reflexivity|].
  cbn [snd].
  destruct (onError this_config) as [| |h]; cbn; unfold schedule.
  1, 2: now rewrite app_nil_r.
  destruct (h _); cbn; rewrite List.filter_app; cbn; now rewrite app_nil_r.
Qed.

(** X26. The default instance of the package does not retry: a [get]
    through it whose configuration sets no [retry.count] makes exactly
    one attempt and never waits, whatever the transport answers, when
    the platform accepts the headers of the configuration; when it
    refuses one, the merge throws and no attempt is made. *)
Theorem default_instance_single_attempt
  (fetch : Transport) (url : string) (config : option Config) :
  (forall c, config = Some c -> slot_get (retry_field count (retry c)) = None) ->
  schedule (snd (get fetch Index.fetch url config))
  = if forallb accepted (header_pairs (headers (with_method config "GET")))
    then [EvPerform 0]
    else [].
Proof.
  intros Hcount. unfold get. rewrite request_schedule.
  destruct (forallb accepted _) eqn:Hacc.
  - destruct (mergeConfig_accepted Index.fetch (with_method config "GET") Hacc)
      as [mergedConfig Hmerge].
    rewrite (executeRequest_merged _ _ _ _ _ Hmerge).
    assert (H0 : retry_count mergedConfig = 0).
    { destruct (mergeConfig_fields _ _ _ Hmerge) as (_ & _ & Hretry & _).
      unfold retry_count. rewrite Hretry. cbn.
      destruct config as [c|]; [|reflexivity].
      specialize (Hcount c eq_refl). cbn. unfold retry_field in Hcount.
      destruct (retry c) as [| |r]; cbn; try reflexivity.
      destruct (count r); cbn; try reflexivity. discriminate Hcount. }
    rewrite H0. change (attempt_range 0) with [0%nat].
    rewrite loop_final.
    + cbn [snd]. apply schedule_attempt_last.
    + rewrite H0.
      destruct (fst (performRequest fetch Index.fetch 0 url mergedConfig)); eauto.
  - rewrite (executeRequest_unmerged _ _ _ _ _
               (mergeConfig_refused Index.fetch (with_method config "GET") Hacc)).
    reflexivity.
Qed.

(** ** Runs of the properties above on the sample environments *)

Lemma performRequest_times_out_witness :
  fst (performRequest (constTransport 2000 200 VNull) emptyConfig 0 "/users"
         (retryConfig 100 0 50 1))
  = Throw (ThrFetchError (TimeoutError "Request timeout after 100ms" 100)).
Proof.
  pose proof (performRequest_times_out (constTransport 2000 200 VNull) emptyConfig
                0%nat "/users" (retryConfig 100 0 50 1) _ 100 eq_refl eq_refl eq_refl)
    as H.
  rewrite H. reflexivity.
Defined.

Lemma performRequest_throws_FetchError_witness :
  exists e, ThrFetchError (FetchErrorClass "Network error" None None None None)
            = ThrFetchError e.
Proof.
  apply (performRequest_throws_FetchError failingTransport emptyConfig 0%nat
           "https://api.example.com/users" emptyConfig ∅).
  - reflexivity.
  - intros h a [=].
  - intros h a [=].
  - reflexivity.
Defined.

Lemma performRequest_rejection_is_retryable_witness :
  exists e,
    fst (performRequest failingTransport emptyConfig 0 "/users" (retryConfig 100 3 50 2))
    = Throw (ThrFetchError e)
    /\ fe_status e = None
    /\ forall mergedConfig, retryable mergedConfig (ThrFetchError e) = true.
Proof.
  exact (performRequest_rejection_is_retryable failingTransport emptyConfig 0%nat
           "/users" (retryConfig 100 3 50 2) _ _ eq_refl eq_refl).
Defined.

Lemma performRequest_abort_without_timer_witness :
  fst (performRequest abortingTransport emptyConfig 0 "/users" emptyConfig)
  = Throw (ThrFetchError (TimeoutError "Request timeout after undefinedms" 0)).
Proof.
  pose proof (performRequest_abort_without_timer abortingTransport emptyConfig 0%nat
                "/users" emptyConfig _ "The user aborted a request"
                eq_refl eq_refl eq_refl) as H.
  rewrite H. reflexivity.
Defined.

Lemma performRequest_bad_status_witness :
  fst (performRequest (constTransport 5 404 (VObj [("error", VStr "User not found")]))
         emptyConfig 0 "/users/999" emptyConfig)
  = Throw (ThrFetchError
             (FetchErrorClass "Request failed with status 404"
                (Some (mockResponse 404 (VObj [("error", VStr "User not found")])))
                (Some 404) (Some "status text")
                (Some (VObj [("error", VStr "User not found")]))))
  /\ exists e,
       fst (performRequest (fun _ _ _ => mkNetReply 5 (Ok (unparsableResponse 404)))
              emptyConfig 0 "/users/999" emptyConfig)
       = Throw (ThrFetchError e)
       /\ fe_status e = None.
Proof.
  split.
  - exact (proj1 (performRequest_bad_status
                    (constTransport 5 404 (VObj [("error", VStr "User not found")]))
                    emptyConfig 0%nat "/users/999" emptyConfig _ _
                    eq_refl eq_refl eq_refl eq_refl) _ eq_refl).
  - exact (proj2 (proj2 (performRequest_bad_status
                           (fun _ _ _ => mkNetReply 5 (Ok (unparsableResponse 404)))
                           emptyConfig 0%nat "/users/999" emptyConfig _ _
                           eq_refl eq_refl eq_refl eq_refl)) _ _ eq_refl eq_refl).
Defined.

Lemma performRequest_parse_failure_witness :
  fst (performRequest (fun _ _ _ => mkNetReply 5 (Ok (unparsableResponse 200)))
         emptyConfig 0 "/users" emptyConfig)
  = Throw (ThrFetchError
             (FetchErrorClass "Failed to parse response as json"
                (Some (unparsableResponse 200)) (Some 200) (Some "status text") None)).
Proof.
  exact (proj1 (performRequest_parse_failure
                  (fun _ _ _ => mkNetReply 5 (Ok (unparsableResponse 200)))
                  emptyConfig 0%nat "/users" emptyConfig _ _ _
                  eq_refl eq_refl eq_refl eq_refl eq_refl)).
Defined.

Lemma performRequest_success_witness :
  exists finalConfig response d,
    prepared emptyConfig emptyConfig = Ok finalConfig
    /\ settled (constTransport 5 200 (VStr "ok") 0%nat (requestURL emptyConfig "/users")
                  (fetch_init finalConfig)) = Ok response
    /\ parseResponse response finalConfig = Ok d
    /\ resp_ok response = true.
Proof.
  destruct (performRequest_success (constTransport 5 200 (VStr "ok")) emptyConfig
              0%nat "/users" emptyConfig _ eq_refl)
    as (finalConfig & response & d & Hprep & _ & Hresp & _ & Hparse & Hok & _).
  exists finalConfig, response, d. repeat split; try assumption.
  apply Hok. injection Hprep as <-. reflexivity.
Defined.

Lemma executeRequest_stops_at_witness :
  let config := Some (retryConfig 1000 3 50 2) in
  (exists response,
     fst (executeRequest flakyTransport emptyConfig "/users" config) = Ok response)
  /\ schedule (snd (executeRequest flakyTransport emptyConfig "/users" config))
     = [EvPerform 0; EvSleep 50; EvPerform 1].
Proof.
  intros config.
  pose (mergedConfig := match mergeConfig (Some emptyConfig) config with
                        | Ok merged => merged
                        | Throw _ => emptyConfig
                        end).
  destruct (executeRequest_stops_at flakyTransport emptyConfig "/users" config
              mergedConfig 1%nat eq_refl)
    as [Hf Hs].
  - cbv. discriminate.
  - intros i Hi. assert (i = 0%nat) as -> by lia. eexists. split; reflexivity.
  - right. left. eexists. reflexivity.
  - split; [eexists; exact Hf | exact Hs].
Defined.

Lemma executeRequest_shape_witness :
  let config := Some (retryConfig 1000 3 50 2) in
  exists mergedConfig k,
    mergeConfig (Some emptyConfig) config = Ok mergedConfig
    /\ (k <= 3)%nat
    /\ schedule (snd (executeRequest failingTransport emptyConfig "/users" config))
       = retry_schedule mergedConfig 0 k.
Proof.
  intros config.
  pose (mergedConfig := match mergeConfig (Some emptyConfig) config with
                        | Ok merged => merged
                        | Throw _ => emptyConfig
                        end).
  destruct (executeRequest_shape failingTransport emptyConfig "/users" config
              mergedConfig eq_refl)
    as (k & Hk & _ & Hs).
  - cbv. discriminate.
  - exists mergedConfig, k. split; [reflexivity|]. split; [|exact Hs].
    change (retry_count mergedConfig) with 3 in Hk. lia.
Defined.

Lemma executeRequest_total_wait_witness :
  total_wait
    (snd (executeRequest failingTransport emptyConfig "/users"
            (Some (retryConfig 5000 3 1000 2))))
  <= 7000.
Proof.
  pose (mergedConfig := match mergeConfig (Some emptyConfig)
                                (Some (retryConfig 5000 3 1000 2)) with
                        | Ok merged => merged
                        | Throw _ => emptyConfig
                        end).
  destruct (executeRequest_total_wait failingTransport emptyConfig "/users"
              (Some (retryConfig 5000 3 1000 2)) mergedConfig eq_refl) as [H _].
  - cbv. discriminate.
  - cbv. discriminate.
  - cbv. discriminate.
  - exact H.
Defined.

Lemma default_instance_single_attempt_witness :
  schedule (snd (get failingTransport Index.fetch "/users"
                   (Some (headersConfig [("Accept", "application/json")]))))
  = [EvPerform 0]
  /\ schedule (snd (get failingTransport Index.fetch "/users"
                      (Some (headersConfig [("X Custom", "value")]))))
     = [].
Proof.
  split.
  - apply (default_instance_single_attempt failingTransport "/users"
             (Some (headersConfig [("Accept", "application/json")]))).
    intros c [= <-]. reflexivity.
  - apply (default_instance_single_attempt failingTransport "/users"
             (Some (headersConfig [("X Custom", "value")]))).
    intros c [= <-]. reflexivity.
Defined.

(** A request hook that rewrites the base URL and the parameters of the
    configuration it returns. *)
Lemma request_url_is_fixed_witness :
  transport_calls (fun u _ => u = "https://api.example.com/users?page=1")
    (snd (request flakyTransport emptyConfig "/users"
            (Some (mkConfig
                     (mkSettings Absent Absent (Val [("page", VNum 1)]) Absent
                        (Val "https://api.example.com/") Absent Absent Absent Absent
                        (Val (mkRetry (Val 1) (Val 10) Absent Absent)) Absent Absent
                        Absent Absent ∅)
                     (Val (fun c =>
                             Ok (mkSettings (method c) (body c) (Val [("page", VNum 2)])
                                   (timeout c) (Val "https://other.example.com")
                                   (headers c) (responseType c) (parseJson c)
                                   (validateStatus c) (retry c) (transformResponse c)
                                   (onResponse c) (onError c) (signal c) (rest c))))
                     Absent)))).
Proof.
  pose (config := mkConfig
                     (mkSettings Absent Absent (Val [("page", VNum 1)]) Absent
                        (Val "https://api.example.com/") Absent Absent Absent Absent
                        (Val (mkRetry (Val 1) (Val 10) Absent Absent)) Absent Absent
                        Absent Absent ∅)
                     (Val (fun c =>
                             Ok (mkSettings (method c) (body c) (Val [("page", VNum 2)])
                                   (timeout c) (Val "https://other.example.com")
                                   (headers c) (responseType c) (parseJson c)
                                   (validateStatus c) (retry c) (transformResponse c)
                                   (onResponse c) (onError c) (signal c) (rest c))))
                     Absent).
  pose (mergedConfig := match mergeConfig (Some emptyConfig) (Some config) with
                        | Ok merged => merged
                        | Throw _ => emptyConfig
                        end).
  exact (request_url_is_fixed flakyTransport emptyConfig "/users" (Some config)
           mergedConfig eq_refl).
Defined.

(** A header name the platform refuses: the request makes no attempt and
    resolves to a failure that carries the [TypeError]'s message. *)
Example request_with_refused_header :
  request (constTransport 5 200 VNull) emptyConfig "/users"
    (Some (headersConfig [("X Custom", "value")]))
  = (Ok (mkResult false None
           (Some (FetchErrorClass "Invalid header name or value" None None None None))),
     []).
Proof.
  vm_compute. reflexivity.
Qed.

(** ** The convenience wrappers *)

Section Wrappers.

Variable fetch : Transport.
Variable this_config : Config.
Variable url : string.

(** What the transport receives from a request whose configuration
    names a method, when no request hook is set. *)
Lemma request_sends (c : Config) (m : string) :
  slot_get (onRequest this_config) = None ->
  slot_get (transformRequest this_config) = None ->
  slot_get (transformRequest c) = None ->
  method c = Val m ->
  transport_calls
    (fun _ init =>
       method init = Val m
       /\ body init
          = body_slot (serializeBody (body_value (spread (body this_config) (body c)))))
    (snd (request fetch this_config url (Some c))).
Proof.
  intros Hon Htr Htc Hm. unfold transport_calls.
  apply request_adds_onError; [exact (fun _ => I)|].
  apply executeRequest_log; try exact (fun _ => I).
  intros mergedConfig attempt Hmerge.
  destruct (mergeConfig_fields _ _ _ Hmerge) as (Hmethod & Hbody & _ & Htransform).
  apply performRequest_events; try exact (fun _ => I); [exact I|].
  intros finalConfig Hprep. unfold prepared in Hprep.
  destruct (assembledHeaders mergedConfig) as [assembled|f]; [|discriminate Hprep].
  rewrite Htransform in Hprep.
  destruct (onRequest this_config); try discriminate Hon.
  all: destruct (transformRequest this_config); try discriminate Htr.
  all: destruct (transformRequest c); try discriminate Htc.
  all: cbn [spread] in Hprep; injection Hprep as <-.
  all: cbn; rewrite Hmethod, Hbody, Hm; split; reflexivity.
Qed.

(** X27. Without request hooks, the wrappers fix the method: every
    transport call of [get] is a GET and of [delete] a DELETE whatever
    method the configurations name, and every call of [post], [put] and
    [patch] carries that method and the serialized body argument, which
    replaces a body of the instance also when it is [undefined]. *)
Theorem wrappers_fix_method (payload : JsVal) (config : option Config) :
  slot_get (onRequest this_config) = None ->
  slot_get (transformRequest this_config) = None ->
  (forall c, config = Some c -> slot_get (transformRequest c) = None) ->
  let sends m := fun (_ : string) init => method init = Val m in
  let carries m := fun (_ : string) init =>
    method init = Val m /\ body init = body_slot (serializeBody payload) in
  transport_calls (sends "GET") (snd (get fetch this_config url config))
  /\ transport_calls (sends "DELETE") (snd (delete fetch this_config url config))
  /\ transport_calls (carries "POST") (snd (post fetch this_config url payload config))
  /\ transport_calls (carries "PUT") (snd (put fetch this_config url payload config))
  /\ transport_calls (carries "PATCH") (snd (patch fetch this_config url payload config)).
Proof.
  intros Hon Htr Hconfig sends carries.
  assert (Hc : forall m, slot_get (transformRequest (with_method config m)) = None).
  { intros m. destruct config as [c|]; [exact (Hconfig c eq_refl) | reflexivity]. }
  assert (Hcb : forall m,
            slot_get (transformRequest (with_method_body config m payload)) = None).
  { intros m. destruct config as [c|]; [exact (Hconfig c eq_refl) | reflexivity]. }
  assert (Hbody : forall m,
            body_value (spread (body this_config)
                          (body (with_method_body config m payload))) = payload).
  { intros m. cbn. destruct payload; reflexivity. }
  unfold get, delete, post, put, patch.
  repeat split.
  1, 2: eapply Forall_impl;
    [apply (request_sends _ _ Hon Htr (Hc _) eq_refl)|];
    intros [] H; try exact I; apply H.
  all: eapply Forall_impl;
    [apply (request_sends _ _ Hon Htr (Hcb _) eq_refl)|];
    intros [] H; try exact I; cbv beta in H; rewrite Hbody in H; exact H.
Qed.

End Wrappers.

Lemma wrappers_fix_method_witness :
  transport_calls (fun _ init => method init = Val "GET")
    (snd (get (constTransport 5 200 VNull) emptyConfig "/users"
            (Some (with_method None "POST")))).
Proof.
  apply (wrappers_fix_method (constTransport 5 200 VNull) emptyConfig "/users" VUndefined
           (Some (with_method None "POST"))).
  - reflexivity.
  - reflexivity.
  - intros c [= <-]. reflexivity.
Defined.
